(** * Gaussian mixture fitting of OrganoidTracker: a shallow embedding

    Sources embedded here:
    - [src/particle_detection/gaussian_fit.py]            (module [ParticleDetection])
    - [src/autotrack/particle_detection/gaussian_fit.py]  (module [Autotrack])

    Numbers.  The Python code computes with IEEE doubles (numpy float64).
    Rounding is not modelled: a float is an element of an abstract
    scalar structure [Scalar] with the operations the code uses
    (arithmetic, [exp], [int()] truncation, comparison).  Algebraic laws
    are a separate class [ScalarLaws] and are only assumed by the results
    that need them.  [Z] is an instance of both; it is used to evaluate
    the definitions on concrete inputs.

    Arrays.  A three-dimensional numpy array indexed [z, y, x] is a list
    of planes, a plane a list of rows, a row a list of scalars.

    Effects.  Exceptions are values of [exn]; a computation that may raise
    has type [Exc A].  The methods of [_ModelAndImageDifference] mutate
    the object's buffers, also when they raise, so they live in a state
    and exception monad [M]. *)

From Stdlib Require Import ZArith Lia String Ring.
From stdpp Require Import base list strings pretty.

Local Open Scope Z_scope.

(** ** Exceptions *)

Inductive exn : Type :=
| TypeError (msg : string)
| ValueError (msg : string)
| LinAlgError (msg : string)
| IndexError (msg : string)
| ZeroDivisionError (msg : string)
| ExternalError (msg : string).

(** [inl e] is [raise e]; [inr v] is a normal return of [v]. *)
Definition Exc (A : Type) : Type := exn + A.

Definition ret {A} (v : A) : Exc A := inr v.
Definition raise {A} (e : exn) : Exc A := inl e.

Definition ebind {A B} (m : Exc A) (k : A -> Exc B) : Exc B :=
  match m with
  | inl e => inl e
  | inr v => k v
  end.

#[export] Instance Exc_ret : MRet Exc := @ret.
#[export] Instance Exc_bind : MBind Exc := fun A B k m => ebind m k.

Lemma bind_inr {A B} (v : A) (k : A -> Exc B) : (inr v ≫= k) = k v.
Proof. reflexivity. Qed.

Lemma bind_inl {A B} (e : exn) (k : A -> Exc B) : (inl e ≫= k) = inl e.
Proof. reflexivity. Qed.

Definition returns {A} (m : Exc A) : Prop := exists v, m = inr v.
Definition raises {A} (m : Exc A) : Prop := exists e, m = inl e.

(** Monadic traversal of a list, left to right, stopping at the first
    exception (a Python [for] loop or list comprehension whose body may
    raise). *)
Fixpoint emapM {A B} (f : A -> Exc B) (l : list A) : Exc (list B) :=
  match l with
  | [] => ret []
  | x :: l' =>
      match f x with
      | inl e => inl e
      | inr y =>
          match emapM f l' with
          | inl e => inl e
          | inr ys => ret (y :: ys)
          end
      end
  end.

(** ** Standard output

    A function that prints returns the lines it printed, in order, next
    to its result; the lines printed before an exception are kept. *)

Definition Out (A : Type) : Type := list string * Exc A.

Definition oret {A} (v : A) : Out A := ([], inr v).

Definition obind {A B} (m : Out A) (k : A -> Out B) : Out B :=
  match m with
  | (l, inl e) => (l, inl e)
  | (l, inr v) => let '(l', r) := k v in (l ++ l', r)
  end.

#[export] Instance Out_ret : MRet Out := @oret.
#[export] Instance Out_bind : MBind Out := fun A B k m => obind m k.

Definition print (line : string) : Out unit := ([line], inr tt).
Definition lift {A} (m : Exc A) : Out A := ([], m).

(** The loop [for x in l: body(x)] over a command that prints and may
    raise. *)
Fixpoint ofor {A} (body : A -> Out unit) (l : list A) : Out unit :=
  match l with
  | [] => oret tt
  | x :: l' => obind (body x) (fun _ => ofor body l')
  end.

(** ** Scalars *)

Class Scalar : Type := {
  num : Type;
  num_eq_dec : forall x y : num, {x = y} + {x <> y};
  zero : num;
  one : num;
  add : num -> num -> num;
  sub : num -> num -> num;
  mul : num -> num -> num;
  div : num -> num -> num;
  neg : num -> num;
  exp : num -> num;
  (** conversion of a Python [int] *)
  of_Z : Z -> num;
  (** Python's [int(x)]: truncation towards zero *)
  trunc : num -> Z;
  leb : num -> num -> bool
}.

Declare Scope num_scope.
Delimit Scope num_scope with num.
Infix "+" := add : num_scope.
Infix "-" := sub : num_scope.
Infix "*" := mul : num_scope.
Infix "/" := div : num_scope.
Notation "- x" := (neg x) : num_scope.
Infix "<=?" := leb : num_scope.

(** The laws of exact arithmetic: a commutative ring in which [of_Z] is
    the canonical morphism, with a compatible order and truncation. *)
Class ScalarLaws (S : Scalar) : Prop := {
  num_ring : ring_theory zero one add mul sub neg (@eq num);
  of_Z_0 : of_Z 0 = zero;
  of_Z_1 : of_Z 1 = one;
  of_Z_add : forall a b, of_Z (a + b) = (of_Z a + of_Z b)%num;
  of_Z_mul : forall a b, of_Z (a * b) = (of_Z a * of_Z b)%num;
  of_Z_leb : forall a b, (of_Z a <=? of_Z b)%num = (a <=? b);
  leb_trans : forall x y z,
    (x <=? y)%num = true -> (y <=? z)%num = true -> (x <=? z)%num = true;
  trunc_of_Z : forall a, trunc (of_Z a) = a;
  (** [int()] is monotone ... *)
  trunc_mono : forall x y, (x <=? y)%num = true -> trunc x <= trunc y;
  (** ... and on non-negative numbers it is the floor, which commutes
      with integer shifts *)
  trunc_shift : forall x d,
    (zero <=? x)%num = true -> (zero <=? x + of_Z d)%num = true ->
    trunc (x + of_Z d)%num = trunc x + d
}.

(** The integers as scalars.  [exp] has no integer counterpart; no result
    below depends on what [exp] computes, and the instance takes
    [fun x => 1 + x * x] in its place. *)
Definition Z_Scalar : Scalar := {|
  num := Z;
  num_eq_dec := Z.eq_dec;
  zero := 0;
  one := 1;
  add := Z.add;
  sub := Z.sub;
  mul := Z.mul;
  div := Z.div;
  neg := Z.opp;
  exp := fun x => 1 + x * x;
  of_Z := fun x => x;
  trunc := fun x => x;
  leb := Z.leb
|}.

(** ** Lists as Python sequences *)

Section Sequences.
Context {A B : Type}.

(** [range(0, n, step)] for a positive [step]: the multiples of [step]
    below [n]. *)
Definition range_step (n step : nat) : list nat :=
  map (fun k => (k * step)%nat) (seq 0 (Nat.div (n + step - 1) step)).

(** [l[i:j]] for in-range, non-negative [i <= j]. *)
Definition slice (i j : nat) (l : list A) : list A := take (j - i) (drop i l).

(** Index normalisation of a slice bound, as [slice.indices] does for a
    step of one: a negative bound counts from the end, and every bound
    is clipped to [0, n]. *)
Definition slice_clip (n : nat) (i : Z) : nat :=
  if i <? 0 then Z.to_nat (Z.max 0 (i + Z.of_nat n))
  else Z.to_nat (Z.min i (Z.of_nat n)).

(** The part of [l] from [start] on that has a partner in [g] is
    combined with it; the rest of [l] is kept. *)
Fixpoint zip_prefix (f : A -> B -> A) (l : list A) (g : list B) : list A :=
  match l, g with
  | x :: l', y :: g' => f x y :: zip_prefix f l' g'
  | _, _ => l
  end.

(** [l[start:start+len(g)] op= g] along one axis. *)
Fixpoint iop_slice (f : A -> B -> A) (start : nat) (l : list A) (g : list B)
  : list A :=
  match start, l with
  | O, _ => zip_prefix f l g
  | S n, x :: l' => x :: iop_slice f n l' g
  | S _, [] => []
  end.

(** [k] consecutive chunks of length [n]. *)
Fixpoint chunks (n k : nat) (l : list A) : list (list A) :=
  match k with
  | O => []
  | S k' => take n l :: chunks n k' (drop n l)
  end.
End Sequences.

(** [numpy.arange(n)]: empty for [n <= 0]. *)
Definition arange (n : Z) : list Z := map Z.of_nat (seq 0 (Z.to_nat n)).

(** ** Arrays *)

Section Arrays.
Context {S : Scalar}.

(** A three-dimensional array: its shape [(shape0, shape1, shape2)] and
    its elements, [voxels !! z !! y !! x]. *)
Record ndarray : Type := mk_ndarray {
  shape0 : nat;
  shape1 : nat;
  shape2 : nat;
  voxels : list (list (list num))
}.

Definition wf_ndarray (a : ndarray) : Prop :=
  length (voxels a) = shape0 a /\
  Forall (fun plane =>
    length plane = shape1 a /\
    Forall (fun row => length row = shape2 a) plane) (voxels a).

Definition same_shape (a b : ndarray) : Prop :=
  shape0 a = shape0 b /\ shape1 a = shape1 b /\ shape2 a = shape2 b.

Definition get (a : ndarray) (z y x : nat) : option num :=
  row ← (plane ← voxels a !! z; plane !! y); row !! x.

Definition map3 {X Y} (f : X -> Y) (v : list (list (list X)))
  : list (list (list Y)) := map (map (map f)) v.

Definition zip3 {X Y} (f : X -> Y -> X) (v : list (list (list X)))
  (w : list (list (list Y))) : list (list (list X)) :=
  zip_with (zip_with (zip_with f)) v w.

(** [a.fill(v)] *)
Definition fill (v : num) (a : ndarray) : ndarray :=
  mk_ndarray (shape0 a) (shape1 a) (shape2 a) (map3 (fun _ => v) (voxels a)).

(** [numpy.zeros] of a given shape *)
Definition zeros (n0 n1 n2 : nat) : ndarray :=
  mk_ndarray n0 n1 n2 (replicate n0 (replicate n1 (replicate n2 zero))).

(** [a op= b] for arrays of one shape *)
Definition iop (f : num -> num -> num) (a b : ndarray) : ndarray :=
  mk_ndarray (shape0 a) (shape1 a) (shape2 a) (zip3 f (voxels a) (voxels b)).

(** [a op= c] for a scalar [c], and [a **= 2] *)
Definition imap (f : num -> num) (a : ndarray) : ndarray :=
  mk_ndarray (shape0 a) (shape1 a) (shape2 a) (map3 f (voxels a)).

(** [a.ravel()] *)
Definition ravel (a : ndarray) : list num := concat (concat (voxels a)).

Definition total (l : list num) : num := fold_left add l zero.

(** [a.sum()] *)
Definition asum (a : ndarray) : num := total (ravel a).

(** [flat.reshape(d0, d1, d2)] of a one-dimensional array.  A negative
    entry stands for the unknown dimension, of which there may be one;
    it is inferred from the size, which the known entries must divide
    and, without an unknown entry, equal. *)
Definition reshape3 (flat : list num) (d0 d1 d2 : Z) : Exc ndarray :=
  let is_unknown (d : Z) : nat := if d <? 0 then 1%nat else 0%nat in
  let known_factor (d : Z) : nat := if d <? 0 then 1%nat else Z.to_nat d in
  let unknown := (is_unknown d0 + is_unknown d1 + is_unknown d2)%nat in
  let known := (known_factor d0 * known_factor d1 * known_factor d2)%nat in
  let infer (d : Z) : nat :=
    if d <? 0 then Nat.div (length flat) known else Z.to_nat d in
  if (1 <? unknown)%nat then
    raise (ValueError "can only specify one unknown dimension")
  else if (unknown =? 1)%nat && ((known =? 0)%nat
            || negb (Nat.modulo (length flat) known =? 0)%nat) then
    raise (ValueError "cannot reshape array")
  else if (unknown =? 0)%nat && negb (length flat =? known)%nat then
    raise (ValueError "cannot reshape array")
  else
    let n0 := infer d0 in
    let n1 := infer d1 in
    let n2 := infer d2 in
    ret (mk_ndarray n0 n1 n2 (chunks n1 n0 (chunks n2 (n0 * n1) flat))).

(** [image[z0:z1, y0:y1, x0:x1] += g].  The view has the shape given by
    the normalised bounds; [g] must have that shape.  (numpy would also
    stretch an axis of [g] of length one; [draw] below never asks for
    that, since an axis of size one always meets a view of length
    one.) *)
Definition iadd_view (image : ndarray) (z0 z1 y0 y1 x0 x1 : Z) (g : ndarray)
  : Exc ndarray :=
  let sz := slice_clip (shape0 image) z0 in
  let sy := slice_clip (shape1 image) y0 in
  let sx := slice_clip (shape2 image) x0 in
  let lz := (slice_clip (shape0 image) z1 - sz)%nat in
  let ly := (slice_clip (shape1 image) y1 - sy)%nat in
  let lx := (slice_clip (shape2 image) x1 - sx)%nat in
  if (shape0 g =? lz)%nat && (shape1 g =? ly)%nat && (shape2 g =? lx)%nat then
    ret (mk_ndarray (shape0 image) (shape1 image) (shape2 image)
           (iop_slice (iop_slice (iop_slice add sx) sy) sz
              (voxels image) (voxels g)))
  else
    raise (ValueError "operands could not be broadcast together").


End Arrays.

(** ** [core.Particle]

    The class is outside the sources at hand; the code reads its
    attributes [x], [y] and [z], which are numbers. *)

Module Core.
Section WithScalar.
Context {S : Scalar}.

End WithScalar.
End Core.

(** ** [src/particle_detection/gaussian_fit.py] *)

Module ParticleDetection.
Section WithScalar.
Context {S : Scalar}.
Local Open Scope num_scope.

(** [class Gaussian]: a three-dimensional Gaussian function. *)
Record Gaussian : Type := mkGaussian {
  a : num;
  mu_x : num;
  mu_y : num;
  mu_z : num;
  cov_xx : num;
  cov_yy : num;
  cov_zz : num;
  cov_xy : num;
  cov_xz : num;
  cov_yz : num
}.

(** The constructor applied to an unpacked sequence, [Gaussian] of
    [*args]: [__init__] has ten required positional parameters, any
    other number of arguments is a [TypeError]. *)
Definition Gaussian_of_args (args : list num) : Exc Gaussian :=
  match args with
  | [a; mx; my; mz; cxx; cyy; czz; cxy; cxz; cyz] =>
      ret (mkGaussian a mx my mz cxx cyy czz cxy cxz cyz)
  | _ => raise (TypeError "__init__() takes 10 positional arguments")
  end.

Definition to_list (self : Gaussian) : list num :=
  [a self; mu_x self; mu_y self; mu_z self; cov_xx self; cov_yy self;
   cov_zz self; cov_xy self; cov_xz self; cov_yz self].

(** [translated] and [scaled] on values: the fields of the object they
    return.  The object-level versions, with the store, are
    [translated_obj] and [scaled_obj] below. *)
Definition translated (self : Gaussian) (dx dy dz : num) : Gaussian :=
  mkGaussian (a self) (mu_x self + dx) (mu_y self + dy) (mu_z self + dz)
    (cov_xx self) (cov_yy self) (cov_zz self)
    (cov_xy self) (cov_xz self) (cov_yz self).

Definition scaled (self : Gaussian) (scale : num) : Gaussian :=
  mkGaussian (a self) (mu_x self * scale) (mu_y self * scale) (mu_z self * scale)
    (cov_xx self) (cov_yy self) (cov_zz self)
    (cov_xy self) (cov_xz self) (cov_yz self).




(** *** Objects

    [Gaussian] instances are mutable Python objects.  The store maps an
    address (an index) to the current fields of the object there;
    construction allocates a fresh address, an augmented assignment
    [obj.f op= v] updates the store in place. *)
Definition address : Type := nat.

Definition new_Gaussian (h : list Gaussian) (args : list num) : Exc (list Gaussian * address) :=
  g ← Gaussian_of_args args; ret (h ++ [g], length h).

Definition deref (h : list Gaussian) (p : nat) : Exc Gaussian :=
  match h !! p with
  | Some g => ret g
  | None => raise (ExternalError "dangling reference")
  end.

Definition set_mu_x (v : num) (g : Gaussian) : Gaussian :=
  mkGaussian (a g) v (mu_y g) (mu_z g) (cov_xx g) (cov_yy g) (cov_zz g)
    (cov_xy g) (cov_xz g) (cov_yz g).
Definition set_mu_y (v : num) (g : Gaussian) : Gaussian :=
  mkGaussian (a g) (mu_x g) v (mu_z g) (cov_xx g) (cov_yy g) (cov_zz g)
    (cov_xy g) (cov_xz g) (cov_yz g).
Definition set_mu_z (v : num) (g : Gaussian) : Gaussian :=
  mkGaussian (a g) (mu_x g) (mu_y g) v (cov_xx g) (cov_yy g) (cov_zz g)
    (cov_xy g) (cov_xz g) (cov_yz g).

(** [obj.field = f(obj.field)] *)
Definition update (h : list Gaussian) (p : nat) (f : Gaussian -> Gaussian) : list Gaussian :=
  alter f p h.

Definition translated_obj (h : list Gaussian) (self : address) (dx dy dz : num)
  : Exc (list Gaussian * address) :=
  me ← deref h self;
  '(h, new_gaussian) ← new_Gaussian h (to_list me);
  let h := update h new_gaussian (fun o => set_mu_x (mu_x o + dx) o) in
  let h := update h new_gaussian (fun o => set_mu_y (mu_y o + dy) o) in
  let h := update h new_gaussian (fun o => set_mu_z (mu_z o + dz) o) in
  ret (h, new_gaussian).

Definition scaled_obj (h : list Gaussian) (self : address) (scale : num)
  : Exc (list Gaussian * address) :=
  me ← deref h self;
  '(h, new_gaussian) ← new_Gaussian h (to_list me);
  let h := update h new_gaussian (fun o => set_mu_x (mu_x o * scale) o) in
  let h := update h new_gaussian (fun o => set_mu_y (mu_y o * scale) o) in
  let h := update h new_gaussian (fun o => set_mu_z (mu_z o * scale) o) in
  ret (h, new_gaussian).

(** *** Rendering *)

(** [_get_positions]: the [x, y, z] coordinates of the elements of a
    [zyx]-indexed array in [ravel()] order, [z] slowest. *)
Definition _get_positions (xsize ysize zsize : Z) : list (Z * Z * Z) :=
  concat (map (fun z =>
    concat (map (fun y =>
      map (fun x => (x, y, z)) (arange xsize)) (arange ysize))) (arange zsize)).

Definition matrix : Type := (num * num * num) * (num * num * num) * (num * num * num).

Definition det3 (m : matrix) : num :=
  let '((m00, m01, m02), (m10, m11, m12), (m20, m21, m22)) := m in
  m00 * (m11 * m22 - m12 * m21) - m01 * (m10 * m22 - m12 * m20)
    + m02 * (m10 * m21 - m11 * m20).

(** [numpy.linalg.inv] of a 3 by 3 matrix: the adjugate over the
    determinant, [LinAlgError] for a singular matrix. *)
Definition inv3 (m : matrix) : Exc matrix :=
  let '((m00, m01, m02), (m10, m11, m12), (m20, m21, m22)) := m in
  let d := det3 m in
  if num_eq_dec d zero then raise (LinAlgError "Singular matrix")
  else ret
    (((m11 * m22 - m12 * m21) / d, (m02 * m21 - m01 * m22) / d, (m01 * m12 - m02 * m11) / d),
     ((m12 * m20 - m10 * m22) / d, (m00 * m22 - m02 * m20) / d, (m02 * m10 - m00 * m12) / d),
     ((m10 * m21 - m11 * m20) / d, (m01 * m20 - m00 * m21) / d, (m00 * m11 - m01 * m10) / d)).

(** [(v.T @ m @ v)] for a column vector [v] *)
Definition quadratic_form (m : matrix) (v : num * num * num) : num :=
  let '((m00, m01, m02), (m10, m11, m12), (m20, m21, m22)) := m in
  let '(v0, v1, v2) := v in
  let r0 := v0 * m00 + v1 * m10 + v2 * m20 in
  let r1 := v0 * m01 + v1 * m11 + v2 * m21 in
  let r2 := v0 * m02 + v1 * m12 + v2 * m22 in
  r0 * v0 + r1 * v1 + r2 * v2.

(** The value [a * exp(-1 / 2 * (pos - mu).T @ cov_inv @ (pos - mu))] at
    one position. *)
Definition gauss_at (cov_inv : matrix) (a mu_x mu_y mu_z : num) (pos : num * num * num)
  : num :=
  let '(x, y, z) := pos in
  a * exp (of_Z (-1) / of_Z 2 * quadratic_form cov_inv (x - mu_x, y - mu_y, z - mu_z)).

Definition pos_num (p : Z * Z * Z) : num * num * num :=
  let '(x, y, z) := p in (of_Z x, of_Z y, of_Z z).

(** [_3d_gauss] on a stack of position vectors. *)
Definition _3d_gauss (pos : list (Z * Z * Z))
    (a mu_x mu_y mu_z cov_xx cov_yy cov_zz cov_xy cov_xz cov_yz : num)
  : Exc (list num) :=
  let covariance_matrix :=
    ((cov_xx, cov_xy, cov_xz), (cov_xy, cov_yy, cov_yz), (cov_xz, cov_yz, cov_zz)) in
  cov_inv ← inv3 covariance_matrix;
  ret (map (fun p => gauss_at cov_inv a mu_x mu_y mu_z (pos_num p)) pos).

(** The integer window of [draw] along one axis: it starts at
    [max(0, int(mu - 3 * cov))] and ends before
    [min(shape, int(mu + 3 * cov))]. *)
Definition window_start (mu cov : num) : Z :=
  Z.max 0 (trunc (mu - of_Z 3 * cov)).
Definition window_end (shape : nat) (mu cov : num) : Z :=
  Z.min (Z.of_nat shape) (trunc (mu + of_Z 3 * cov)).

(** [Gaussian.draw]: the new contents of [image]. *)
Definition draw (self : Gaussian) (image : ndarray) : Exc ndarray :=
  let offset_x := window_start (mu_x self) (cov_xx self) in
  let offset_y := window_start (mu_y self) (cov_yy self) in
  let offset_z := window_start (mu_z self) (cov_zz self) in
  let max_x := window_end (shape2 image) (mu_x self) (cov_xx self) in
  let max_y := window_end (shape1 image) (mu_y self) (cov_yy self) in
  let max_z := window_end (shape0 image) (mu_z self) (cov_zz self) in
  let '(size_x, size_y, size_z) :=
    ((max_x - offset_x)%Z, (max_y - offset_y)%Z, (max_z - offset_z)%Z) in
  let pos := _get_positions size_x size_y size_z in
  gauss ← _3d_gauss pos (a self) (mu_x self - of_Z offset_x)
             (mu_y self - of_Z offset_y) (mu_z self - of_Z offset_z)
             (cov_xx self) (cov_yy self) (cov_zz self)
             (cov_xy self) (cov_xz self) (cov_yz self);
  gauss ← reshape3 gauss size_z size_y size_x;
  iadd_view image offset_z max_z offset_y max_y offset_x max_x gauss.

(** *** Fitting *)

(** [_3d_gauss(pos, *gaussian_params)]: ten parameters are required. *)
Definition _3d_gauss_args (pos : list (Z * Z * Z)) (params : list num)
  : Exc (list num) :=
  match params with
  | [a; mx; my; mz; cxx; cyy; czz; cxy; cxz; cyz] =>
      _3d_gauss pos a mx my mz cxx cyy czz cxy cxz cyz
  | _ => raise (TypeError "_3d_gauss() takes 11 positional arguments")
  end.

Fixpoint _3d_gauss_multiple_loop (pos : list (Z * Z * Z)) (args : list num)
    (totals : list num) (starts : list nat) : Exc (list num) :=
  match starts with
  | [] => ret totals
  | i :: starts' =>
      let gaussian_params := slice i (i + 10) args in
      g ← _3d_gauss_args pos gaussian_params;
      _3d_gauss_multiple_loop pos args (zip_with add totals g) starts'
  end.

(** [_3d_gauss_multiple]: the mixture model handed to the curve fit. *)
Definition _3d_gauss_multiple (pos : list (Z * Z * Z)) (args : list num)
  : Exc (list num) :=
  let args_count := length args in
  let totals := replicate (length pos) zero in
  _3d_gauss_multiple_loop pos args totals (range_step args_count 10).

(** [Gaussian] of [*params[i:i + 10]] for [i] in [range(0, len(params), 10)] *)
Definition gaussians_of_params (params : list num) : Exc (list Gaussian) :=
  emapM (fun i => Gaussian_of_args (slice i (i + 10) params))
    (range_step (length params) 10).


Section Fit.
(** [scipy.optimize.curve_fit(f, xdata, ydata, p0)]: an external
    routine; it returns the coefficients and their covariance. *)
Variable curve_fit :
  (list (Z * Z * Z) -> list num -> Exc (list num)) ->
  list (Z * Z * Z) -> list num -> list num ->
  Exc (list num * list (list num)).

(** [cv2.resize(src, dsize=(w, h))]: an external routine; its result
    is what it writes to [dst]. *)
Variable cv2_resize : list (list num) -> nat -> nat -> Exc (list (list num)).

Definition perform_gaussian_mixture_fit (original_image : ndarray)
    (guesses : list Gaussian) : Out (list Gaussian) :=
  let '(xsize, ysize, zsize) :=
    (Z.of_nat (shape2 original_image), Z.of_nat (shape1 original_image),
     Z.of_nat (shape0 original_image)) in
  let pos := _get_positions xsize ysize zsize in
  let parameters := concat (map to_list guesses) in
  let image_1d := ravel original_image in
  _ ← print ("Starting the fit... " +:+ pretty (length parameters)
             +:+ " parameters, " +:+ pretty (length pos) +:+ " pixels");
  '(coeff, var_matrix) ←
    lift (curve_fit _3d_gauss_multiple pos image_1d parameters);
  _ ← print "Done!";
  lift (gaussians_of_params coeff).

(** [perform_gaussian_fit]: element [0] of the mixture fit of one guess. *)
Definition perform_gaussian_fit (original_image : ndarray) (guess : Gaussian)
  : Out Gaussian :=
  l ← perform_gaussian_mixture_fit original_image [guess];
  match l with
  | g :: _ => oret g
  | [] => lift (raise (IndexError "list index out of range"))
  end.

(** Python's [a / b] on integers. *)
Definition py_truediv (a b : Z) : Exc num :=
  if (b =? 0)%Z then raise (ZeroDivisionError "division by zero")
  else ret (of_Z a / of_Z b).

(** The loop that fills [new_image] plane by plane. *)
Fixpoint resize_planes (original_image : ndarray) (new_size : nat)
    (new_image : list (list (list num))) (zs : list nat)
  : Exc (list (list (list num))) :=
  match zs with
  | [] => ret new_image
  | z :: zs' =>
      match voxels original_image !! z with
      | None => raise (IndexError "index out of bounds")
      | Some plane =>
          dst ← cv2_resize plane new_size new_size;
          resize_planes original_image new_size (<[z := dst]> new_image) zs'
      end
  end.

(** [perform_gaussian_mixture_fit_lowres].  [uninit] is what
    [numpy.empty] leaves in the new array. *)
Definition perform_gaussian_mixture_fit_lowres (uninit : num)
    (original_image : ndarray) (guesses : list Gaussian)
  : Out (list Gaussian) :=
  let new_size := 64%nat in
  let old_size := shape1 original_image in
  let new_image :=
    replicate (shape0 original_image)
      (replicate new_size (replicate new_size uninit)) in
  new_image ← lift (resize_planes original_image new_size new_image
                      (seq 0 (shape0 original_image)));
  guesses ← lift (emapM (fun guess =>
               s ← py_truediv (Z.of_nat new_size) (Z.of_nat old_size);
               ret (scaled guess s)) guesses);
  perform_gaussian_mixture_fit original_image guesses.
End Fit.
End WithScalar.
End ParticleDetection.

(** ** [src/autotrack/particle_detection/gaussian_fit.py] *)

Module Autotrack.
Import ParticleDetection.
Section WithScalar.
Context {S : Scalar}.
Local Open Scope num_scope.

(** *** The collaborator [autotrack.core.gaussian.Gaussian]

    The class is imported from a module outside the sources at hand.
    Its fields, constructor, [to_list] and [translated] are taken to be
    those of [ParticleDetection.Gaussian]; keys of a dictionary compare
    by all ten parameters. *)
Definition Gaussian_eq_dec (g h : Gaussian) : {g = h} + {g <> h}.
Proof. decide equality; apply num_eq_dec. Defined.

(** Modelled from the spec: [Gaussian.draw(image, cached)] of
    [autotrack.core.gaussian], which is missing.  It rasterizes the
    Gaussian into the window of [ParticleDetection.draw], adds it to
    [image] there, and returns the rendered sub-array, so that a caller
    can hand it back as [cached] when the parameters are unchanged; a
    render handed back is added in place of a new one.  The result is
    the new contents of [image] and the returned sub-array. *)
Definition draw (self : Gaussian) (image : ndarray) (cached : option ndarray)
  : Exc (ndarray * ndarray) :=
  let offset_x := window_start (mu_x self) (cov_xx self) in
  let offset_y := window_start (mu_y self) (cov_yy self) in
  let offset_z := window_start (mu_z self) (cov_zz self) in
  let max_x := window_end (shape2 image) (mu_x self) (cov_xx self) in
  let max_y := window_end (shape1 image) (mu_y self) (cov_yy self) in
  let max_z := window_end (shape0 image) (mu_z self) (cov_zz self) in
  gauss ←
    match cached with
    | Some cached_gaussian => ret cached_gaussian
    | None =>
        let '(size_x, size_y, size_z) :=
          ((max_x - offset_x)%Z, (max_y - offset_y)%Z, (max_z - offset_z)%Z) in
        let pos := _get_positions size_x size_y size_z in
        gauss ← _3d_gauss pos (a self) (mu_x self - of_Z offset_x)
                   (mu_y self - of_Z offset_y) (mu_z self - of_Z offset_z)
                   (cov_xx self) (cov_yy self) (cov_zz self)
                   (cov_xy self) (cov_xz self) (cov_yz self);
        reshape3 gauss size_z size_y size_x
    end;
  image ← iadd_view image offset_z max_z offset_y max_y offset_x max_x gauss;
  ret (image, gauss).

(** *** Dictionaries keyed by Gaussians, in insertion order *)
Definition dict : Type := list (Gaussian * ndarray).

Fixpoint dict_get (d : dict) (k : Gaussian) : option ndarray :=
  match d with
  | [] => None
  | (k', v) :: d' => if Gaussian_eq_dec k' k then Some v else dict_get d' k
  end.

Fixpoint dict_set (d : dict) (k : Gaussian) (v : ndarray) : dict :=
  match d with
  | [] => [(k, v)]
  | (k', v') :: d' =>
      if Gaussian_eq_dec k' k then (k', v) :: d' else (k', v') :: dict_set d' k v
  end.

(** *** [class _ModelAndImageDifference] *)
Record ModelAndImageDifference : Type := mkModel {
  _data_image : ndarray;
  _scratch_image : ndarray;
  _scratch_image_gradient : ndarray;
  _last_gaussians : dict
}.

Definition set_scratch_image (f : ndarray -> ndarray) (self : ModelAndImageDifference) :=
  mkModel (_data_image self) (f (_scratch_image self))
    (_scratch_image_gradient self) (_last_gaussians self).
Definition set_scratch_image_gradient (f : ndarray -> ndarray)
    (self : ModelAndImageDifference) :=
  mkModel (_data_image self) (_scratch_image self)
    (f (_scratch_image_gradient self)) (_last_gaussians self).
Definition set_last_gaussians (d : dict) (self : ModelAndImageDifference) :=
  mkModel (_data_image self) (_scratch_image self)
    (_scratch_image_gradient self) d.

(** A method: from the object's state to a result or an exception, and
    the state it leaves behind (also when it raises). *)
Definition M (A : Type) : Type :=
  ModelAndImageDifference -> Exc A * ModelAndImageDifference.

Definition mreturn {A} (v : A) : M A := fun self => (inr v, self).
Definition mbind_ {A B} (m : M A) (k : A -> M B) : M B :=
  fun self =>
    match m self with
    | (inl e, self') => (inl e, self')
    | (inr v, self') => k v self'
    end.
Definition mlift {A} (m : Exc A) : M A := fun self => (m, self).
Definition mget : M ModelAndImageDifference := fun self => (inr self, self).
Definition mmodify (f : ModelAndImageDifference -> ModelAndImageDifference) : M unit :=
  fun self => (inr tt, f self).

#[export] Instance M_ret : MRet M := @mreturn.
#[export] Instance M_bind : MBind M := fun A B k m => mbind_ m k.

Section Model.
(** What uninitialised memory ([numpy.empty_like]) holds. *)
Variable uninit : num.

(** [Gaussian.draw_gradient(image, gradient_nr)] of
    [autotrack.core.gaussian], which is missing: the new contents of
    [image]. *)
Variable draw_gradient : Gaussian -> ndarray -> nat -> Exc ndarray.

Definition __init__ (data_image : ndarray) : ModelAndImageDifference :=
  mkModel data_image (fill uninit data_image) (fill uninit data_image) [].

(** [gaussian.draw(self._scratch_image, cached_image)] *)
Definition draw_to_scratch (gaussian : Gaussian) (cached_image : option ndarray)
  : M ndarray :=
  fun self =>
    match draw gaussian (_scratch_image self) cached_image with
    | inl e => (inl e, self)
    | inr (image, rendered) => (inr rendered, set_scratch_image (fun _ => image) self)
    end.

Fixpoint _draw_gaussians_loop (params : list num) (last_gaussians_new : dict)
    (starts : list nat) : M dict :=
  match starts with
  | [] => mreturn last_gaussians_new
  | i :: starts' =>
      let gaussian_params := slice i (i + 10) params in
      mbind_ (mlift (Gaussian_of_args gaussian_params)) (fun gaussian =>
      mbind_ mget (fun self =>
      let cached_image := dict_get (_last_gaussians self) gaussian in
      mbind_ (draw_to_scratch gaussian cached_image) (fun rendered =>
      _draw_gaussians_loop params (dict_set last_gaussians_new gaussian rendered)
        starts')))
  end.

Definition _draw_gaussians_to_scratch_image (params : list num) : M unit :=
  mbind_ (mmodify (set_scratch_image (fill zero))) (fun _ =>
  mbind_ (_draw_gaussians_loop params [] (range_step (length params) 10))
    (fun last_gaussians_new =>
  mmodify (set_last_gaussians last_gaussians_new))).

Definition difference_with_image (params : list num) : M num :=
  mbind_ (_draw_gaussians_to_scratch_image params) (fun _ =>
  mbind_ (mmodify (fun self =>
            set_scratch_image (fun s => iop sub s (_data_image self)) self)) (fun _ =>
  mbind_ (mmodify (set_scratch_image (imap (fun v => v * v)))) (fun _ =>
  mbind_ mget (fun self =>
  let sum := asum (_scratch_image self) in
  mreturn sum)))).

(** The inner loop of [gradient]: one entry per parameter of one
    Gaussian. *)
Fixpoint gradient_inner (gaussian : Gaussian) (gaussian_index : nat)
    (gradient_for_each_parameter : list num) (nrs : list nat) : M (list num) :=
  match nrs with
  | [] => mreturn gradient_for_each_parameter
  | gradient_nr :: nrs' =>
      mbind_ (mmodify (set_scratch_image_gradient (fill zero))) (fun _ =>
      mbind_ (fun self =>
                match draw_gradient gaussian (_scratch_image_gradient self) gradient_nr with
                | inl e => (inl e, self)
                | inr image => (inr tt, set_scratch_image_gradient (fun _ => image) self)
                end) (fun _ =>
      mbind_ (mmodify (fun self =>
                set_scratch_image_gradient
                  (fun s => iop mul s (_scratch_image self)) self)) (fun _ =>
      mbind_ mget (fun self =>
      gradient_inner gaussian gaussian_index
        (<[(gaussian_index * 10 + gradient_nr)%nat :=
             asum (_scratch_image_gradient self)]> gradient_for_each_parameter)
        nrs'))))
  end.

Fixpoint gradient_outer (params : list num)
    (gradient_for_each_parameter : list num) (indices : list nat)
  : M (list num) :=
  match indices with
  | [] => mreturn gradient_for_each_parameter
  | gaussian_index :: indices' =>
      let param_pos := (gaussian_index * 10)%nat in
      mbind_ (mlift (Gaussian_of_args (slice param_pos (param_pos + 10) params)))
        (fun gaussian =>
      mbind_ (gradient_inner gaussian gaussian_index gradient_for_each_parameter
                (seq 0 10)) (fun gradient_for_each_parameter =>
      gradient_outer params gradient_for_each_parameter indices'))
  end.

Definition gradient (params : list num) : M (list num) :=
  mbind_ (_draw_gaussians_to_scratch_image params) (fun _ =>
  mbind_ (mmodify (fun self =>
            set_scratch_image (fun s => iop sub s (_data_image self)) self)) (fun _ =>
  mbind_ (mmodify (set_scratch_image (imap (fun v => v * of_Z 2)))) (fun _ =>
  let gradient_for_each_parameter := replicate (length params) uninit in
  gradient_outer params gradient_for_each_parameter
    (seq 0 (Nat.div (length params) 10))))).

(** *** The mixture fit *)

(** The result object of [scipy.optimize.minimize]. *)
Record OptimizeResult : Type := mkResult {
  success : bool;
  message : string;
  x : list num
}.

(** [scipy.optimize.minimize(fun, x0, method=..., options=...)]: an
    external routine.  It is handed the objective as a method of an
    object in some state and may evaluate it any number of times. *)
Variable minimize :
  forall St : Type, (list num -> St -> Exc num * St) -> St -> list num ->
  Exc OptimizeResult.

Definition perform_gaussian_mixture_fit (original_image : ndarray)
    (guesses : list Gaussian) : Exc (list Gaussian) :=
  let model_and_image_difference := __init__ original_image in
  let guesses_list := concat (map to_list guesses) in
  result ← minimize _ difference_with_image model_and_image_difference guesses_list;
  if negb (success result) then
    raise (ValueError ("Minimization failed: " +:+ message result))
  else
    gaussians_of_params (x result).

Definition perform_gaussian_fit (original_image : ndarray) (guess : Gaussian)
  : Exc Gaussian :=
  l ← perform_gaussian_mixture_fit original_image [guess];
  match l with
  | g :: _ => ret g
  | [] => raise (IndexError "list index out of range")
  end.

(** *** The fit of a whole image, cluster by cluster *)

(** [l[i] = v] on a Python list: a negative index counts from the
    end, an index out of range is an [IndexError]. *)
Definition list_setitem {A} (l : list A) (i : Z) (v : A) : Exc (list A) :=
  let n := Z.of_nat (length l) in
  if (0 <=? i)%Z && (i <? n)%Z then ret (<[Z.to_nat i := v]> l)
  else if (- n <=? i)%Z && (i <? 0)%Z then ret (<[Z.to_nat (i + n) := v]> l)
  else raise (IndexError "list assignment index out of range").

(** [l[i]] for an index [i] that counts up from zero *)
Definition list_getitem {A} (l : list A) (i : nat) : Exc A :=
  match l !! i with
  | Some v => ret v
  | None => raise (IndexError "list index out of range")
  end.

Section Orchestrator.
(** The collaborators of module [ellipse_cluster] and [smoothing],
    which are outside the sources at hand. *)
Variable EllipseStacks : Type.
Variable Cluster : Type.
Variable stacks_len : EllipseStacks -> nat.
Variable get_ellipse_stacks_from_watershed : ndarray -> EllipseStacks.
Variable find_overlapping_stacks : EllipseStacks -> list Cluster.
Variable get_image_for_fit : Cluster -> ndarray -> Z -> Z * Z * Z * option ndarray.
Variable guess_gaussians : Cluster -> ndarray -> list Gaussian.
Variable get_tags : Cluster -> list Z.
Variable cluster_str : Cluster -> string.
(** [smoothing.smooth] works in place: the new contents of its
    argument. *)
Variable smooth : ndarray -> Z -> ndarray.
(** The two readings of [default_timer()], and [str] on floats. *)
Variable start_time end_time : num.
Variable float_str : num -> string.

(** [for i, gaussian in enumerate(gaussians):
       all_gaussians[tags[i]] = gaussian.translated(...)]:
    the list as the loop leaves it, also when it raises. *)
Fixpoint store_gaussians (tags : list Z) (offset_x offset_y offset_z : Z)
    (i : nat) (gaussians : list Gaussian)
    (all_gaussians : list (option Gaussian))
  : Exc unit * list (option Gaussian) :=
  match gaussians with
  | [] => (ret tt, all_gaussians)
  | gaussian :: gaussians' =>
      match list_getitem tags i with
      | inl e => (inl e, all_gaussians)
      | inr tag =>
          match list_setitem all_gaussians tag
                  (Some (translated gaussian (of_Z offset_x) (of_Z offset_y)
                           (of_Z offset_z))) with
          | inl e => (inl e, all_gaussians)
          | inr all_gaussians' =>
              store_gaussians tags offset_x offset_y offset_z (Datatypes.S i)
                gaussians' all_gaussians'
          end
      end
  end.

(** The body of the [try] statement. *)
Definition try_body (cropped_image : ndarray) (gaussians : list Gaussian)
    (tags : list Z) (offset_x offset_y offset_z : Z)
    (all_gaussians : list (option Gaussian))
  : Exc unit * list (option Gaussian) :=
  match perform_gaussian_mixture_fit cropped_image gaussians with
  | inl e => (inl e, all_gaussians)
  | inr gaussians =>
      store_gaussians tags offset_x offset_y offset_z 0 gaussians all_gaussians
  end.

(** One iteration of the loop over the clusters: what it prints, and
    the result list as it leaves it or the exception that ends the
    whole function. *)
Definition fit_cluster (image : ndarray) (blur_radius : Z) (cluster : Cluster)
    (all_gaussians : list (option Gaussian)) : Out (list (option Gaussian)) :=
  let '(offset_x, offset_y, offset_z, cropped_image) :=
    get_image_for_fit cluster image blur_radius in
  match cropped_image with
  | None => oret all_gaussians
  | Some cropped_image =>
      let cropped_image := smooth cropped_image blur_radius in
      let gaussians := guess_gaussians cluster image in
      let tags := get_tags cluster in
      let gaussians :=
        map (fun gaussian =>
               translated gaussian (of_Z (- offset_x)) (of_Z (- offset_y))
                 (of_Z (- offset_z))) gaussians in
      match try_body cropped_image gaussians tags offset_x offset_y offset_z
              all_gaussians with
      | (inr _, all_gaussians) => oret all_gaussians
      | (inl (ValueError _), all_gaussians) =>
          obind (print ("Minimization failed for " +:+ cluster_str cluster))
            (fun _ => oret all_gaussians)
      | (inl e, _) => lift (raise e)
      end
  end.

Fixpoint fit_clusters (image : ndarray) (blur_radius : Z)
    (clusters : list Cluster) (all_gaussians : list (option Gaussian))
  : Out (list (option Gaussian)) :=
  match clusters with
  | [] => oret all_gaussians
  | cluster :: clusters' =>
      obind (fit_cluster image blur_radius cluster all_gaussians)
        (fit_clusters image blur_radius clusters')
  end.

Definition perform_gaussian_mixture_fit_from_watershed (image : ndarray)
    (watershed_image : ndarray) (blur_radius : Z)
  : Out (list (option Gaussian)) :=
  let ellipse_stacks := get_ellipse_stacks_from_watershed watershed_image in
  let ellipse_clusters := find_overlapping_stacks ellipse_stacks in
  let all_gaussians := replicate (stacks_len ellipse_stacks) None in
  obind (fit_clusters image blur_radius ellipse_clusters all_gaussians)
    (fun all_gaussians =>
  obind (print ("Whole fitting process took "
                +:+ float_str (end_time - start_time) +:+ " seconds."))
    (fun _ =>
  oret all_gaussians)).
End Orchestrator.
End Model.
End WithScalar.
End Autotrack.

(** ** Vocabulary of the statements *)

Section Vocabulary.
Import ParticleDetection.
Context {S : Scalar}.
Local Open Scope num_scope.

(** The array with element [f x y z] at [z, y, x], for the indices below
    the given sizes. *)
Definition tabulate3 (f : Z -> Z -> Z -> num) (size_z size_y size_x : Z)
  : list (list (list num)) :=
  map (fun z => map (fun y => map (fun x => f x y z) (arange size_x))
                  (arange size_y)) (arange size_z).


(** The window is not inverted along any axis. *)
Definition window_ok (g : Gaussian) (image : ndarray) : Prop :=
  (window_start (mu_z g) (cov_zz g) <= window_end (shape0 image) (mu_z g) (cov_zz g))%Z /\
  (window_start (mu_y g) (cov_yy g) <= window_end (shape1 image) (mu_y g) (cov_yy g))%Z /\
  (window_start (mu_x g) (cov_xx g) <= window_end (shape2 image) (mu_x g) (cov_xx g))%Z.

Definition covariance_matrix (g : Gaussian) : matrix :=
  ((cov_xx g, cov_xy g, cov_xz g), (cov_xy g, cov_yy g, cov_yz g),
   (cov_xz g, cov_yz g, cov_zz g)).


(** The sub-array that [draw] computes before it adds it to the image. *)
Definition render (self : Gaussian) (image : ndarray) : Exc ndarray :=
  let offset_x := window_start (mu_x self) (cov_xx self) in
  let offset_y := window_start (mu_y self) (cov_yy self) in
  let offset_z := window_start (mu_z self) (cov_zz self) in
  let max_x := window_end (shape2 image) (mu_x self) (cov_xx self) in
  let max_y := window_end (shape1 image) (mu_y self) (cov_yy self) in
  let max_z := window_end (shape0 image) (mu_z self) (cov_zz self) in
  gauss ← _3d_gauss (_get_positions (max_x - offset_x) (max_y - offset_y)
                       (max_z - offset_z))
             (a self) (mu_x self - of_Z offset_x)
             (mu_y self - of_Z offset_y) (mu_z self - of_Z offset_z)
             (cov_xx self) (cov_yy self) (cov_zz self)
             (cov_xy self) (cov_xz self) (cov_yz self);
  reshape3 gauss (max_z - offset_z) (max_y - offset_y) (max_x - offset_x).

(** [image[window] += g] for the window of [self]. *)
Definition add_in_window (self : Gaussian) (image g : ndarray) : Exc ndarray :=
  iadd_view image
    (window_start (mu_z self) (cov_zz self))
    (window_end (shape0 image) (mu_z self) (cov_zz self))
    (window_start (mu_y self) (cov_yy self))
    (window_end (shape1 image) (mu_y self) (cov_yy self))
    (window_start (mu_x self) (cov_xx self))
    (window_end (shape2 image) (mu_x self) (cov_xx self)) g.



(* END Vocabulary *)
End Vocabulary.

(** ** Vocabulary of the statements about [_ModelAndImageDifference] *)

Section ModelVocabulary.
Import ParticleDetection.
Context {S : Scalar}.
Local Open Scope num_scope.

(** The nesting of an array without its elements. *)
Definition structure (v : list (list (list num))) : list (list (list unit)) :=
  map3 (fun _ => tt) v.

(** Two arrays of one shape and one nesting. *)
Definition same_layout (a b : ndarray) : Prop :=
  same_shape a b /\ structure (voxels a) = structure (voxels b).

(** The sum of the blobs encoded in [params], each one rendered by
    [ParticleDetection.draw] on top of [image]; the slices are taken and
    drawn one after the other. *)
Fixpoint render_sum (params : list num) (image : ndarray) (starts : list nat)
  : Exc ndarray :=
  match starts with
  | [] => ret image
  | i :: starts' =>
      g ← Gaussian_of_args (slice i (i + 10) params);
      image' ← ParticleDetection.draw g image;
      render_sum params image' starts'
  end.

(** The model sum: all blobs rendered additively into a zeroed buffer
    of the shape of the target. *)
Definition model_sum (target : ndarray) (params : list num) : Exc ndarray :=
  render_sum params (fill zero target) (range_step (length params) 10).

(** The residual image [r = model_sum - target]. *)
Definition residual (target : ndarray) (params : list num) : Exc ndarray :=
  m ← model_sum target params; ret (iop sub m target).

(** The sum over all voxels of the squared residual. *)
Definition sum_of_squared_differences (target : ndarray) (params : list num)
  : Exc num :=
  r ← residual target params; ret (asum (imap (fun v => v * v) r)).

(** The element-wise dot product of two arrays. *)
Definition dot (a b : ndarray) : num := asum (iop mul a b).

(** Every render in the dictionary is the render of its key. *)
Definition coherent (target : ndarray) (d : Autotrack.dict) : Prop :=
  forall k v, Autotrack.dict_get d k = Some v -> render k target = inr v.

Section Reachable.
Variable uninit : num.
Variable draw_gradient : Gaussian -> ndarray -> nat -> Exc ndarray.

(** The states of an instance created for [target], after any
    history of calls of its two public methods, including calls that
    raised. *)
Inductive reachable (target : ndarray) : Autotrack.ModelAndImageDifference -> Prop :=
| reachable_init :
    reachable target (Autotrack.__init__ uninit target)
| reachable_difference self params :
    reachable target self ->
    reachable target (snd (Autotrack.difference_with_image params self))
| reachable_gradient self params :
    reachable target self ->
    reachable target (snd (Autotrack.gradient uninit draw_gradient params self)).

(** In-place drawing cannot change the shape of the buffer it draws
    into. *)
Definition keeps_layout : Prop :=
  forall g image k image', draw_gradient g image k = inr image' ->
                           same_layout image image'.
End Reachable.
End ModelVocabulary.

(** ** Vocabulary of the statements about the fit of a whole image *)


(** The slot that index [t] denotes in a Python list of length [n]. *)
Definition slot (n : nat) (t : Z) : option nat :=
  if (0 <=? t)%Z && (t <? Z.of_nat n)%Z then Some (Z.to_nat t)
  else if (- Z.of_nat n <=? t)%Z && (t <? 0)%Z then Some (Z.to_nat (t + Z.of_nat n))
  else None.

(** Two lists of one length that hold the same outside the slots [T]. *)
Definition agree_outside {A} (T : list nat) (l1 l2 : list A) : Prop :=
  length l1 = length l2 /\ forall p, p ∉ T -> l1 !! p = l2 !! p.

Section OrchestratorVocabulary.
Import ParticleDetection Autotrack.
Context {S : Scalar}.
Variable uninit : num.
Variable minimize :
  forall St : Type, (list num -> St -> Exc num * St) -> St -> list num ->
  Exc OptimizeResult.
Variable Cluster : Type.
Variable get_image_for_fit : Cluster -> ndarray -> Z -> Z * Z * Z * option ndarray.
Variable guess_gaussians : Cluster -> ndarray -> list Gaussian.
Variable smooth : ndarray -> Z -> ndarray.

(** What becomes of one cluster: its crop is absent; the fit raises a
    [ValueError] (the minimizer did not succeed, or raised one itself);
    the fit returns blobs; or another exception ends the run. *)
Inductive Outcome : Type :=
| Skipped
| Failed (msg : string)
| Fitted (gaussians : list Gaussian)
| Aborted (e : exn).

(** The initial guesses of a cluster in the coordinates of its crop. *)
Definition local_guesses (image : ndarray) (blur_radius : Z) (cluster : Cluster)
  : list Gaussian :=
  let '(offset_x, offset_y, offset_z, _) := get_image_for_fit cluster image blur_radius in
  map (fun gaussian =>
         translated gaussian (of_Z (- offset_x)) (of_Z (- offset_y)) (of_Z (- offset_z)))
    (guess_gaussians cluster image).

Definition outcome (image : ndarray) (blur_radius : Z) (cluster : Cluster) : Outcome :=
  let '(_, _, _, cropped_image) := get_image_for_fit cluster image blur_radius in
  match cropped_image with
  | None => Skipped
  | Some cropped_image =>
      match perform_gaussian_mixture_fit uninit minimize
              (smooth cropped_image blur_radius)
              (local_guesses image blur_radius cluster) with
      | inr gaussians => Fitted gaussians
      | inl (ValueError msg) => Failed msg
      | inl e => Aborted e
      end
  end.

(** The origin of the crop of a cluster. *)
Definition crop_origin (image : ndarray) (blur_radius : Z) (cluster : Cluster)
  : Z * Z * Z :=
  let '(offset_x, offset_y, offset_z, _) := get_image_for_fit cluster image blur_radius in
  (offset_x, offset_y, offset_z).
End OrchestratorVocabulary.

(** ** Concrete inputs

    Small inputs over the integer scalars, on which the definitions above
    are evaluated below. *)

Module Samples.
Import ParticleDetection.

Definition blob : @Gaussian Z_Scalar :=
  @mkGaussian Z_Scalar 200 2 2 1 1 1 1 0 0 0.

Definition blob_store : list (@Gaussian Z_Scalar) := [blob].

(** A [2 x 3 x 3] image. *)
Definition image : @ndarray Z_Scalar :=
  @mk_ndarray Z_Scalar 2 3 3
    [ [ [1; 2; 3]; [4; 5; 6]; [7; 8; 9] ];
      [ [9; 8; 7]; [6; 5; 4]; [3; 2; 1] ] ].

(** A blob whose window in [image] is the single voxel at the origin. *)
Definition small_blob : @Gaussian Z_Scalar :=
  @mkGaussian Z_Scalar 10 (-2) (-2) (-2) 1 1 1 0 0 0.

(** The parameter vector that encodes [small_blob]. *)
Definition params : list Z := [10; -2; -2; -2; 1; 1; 1; 0; 0; 0].

(** A vector that is too short for one blob. *)
Definition short_params : list Z := [1; 2; 3].

(** A derivative renderer that leaves the buffer as it is. *)
Definition flat_gradient (g : @Gaussian Z_Scalar) (image : @ndarray Z_Scalar) (k : nat)
  : Exc (@ndarray Z_Scalar) := inr image.


(** A curve fit that hands back its starting point, and a resize that
    writes zeros. *)
Definition identity_fit
    (f : list (Z * Z * Z) -> list Z -> Exc (list Z))
    (xdata : list (Z * Z * Z)) (ydata p0 : list Z) : Exc (list Z * list (list Z)) :=
  inr (p0, []).

Definition zero_resize (src : list (list Z)) (w h : nat) : Exc (list (list Z)) :=
  inr (replicate h (replicate w 0)).

(** *** Collaborators of the fit of a whole image

    Clusters are numbered; cluster [c] owns the one tag [c], its crop is
    the whole image at the origin, and its one guess is [small_blob]. *)
Definition crop_all (c : nat) (image : @ndarray Z_Scalar) (blur_radius : Z)
  : Z * Z * Z * option (@ndarray Z_Scalar) := (0, 0, 0, Some image).

Definition one_guess (c : nat) (image : @ndarray Z_Scalar) : list (@Gaussian Z_Scalar) :=
  [small_blob].

Definition own_tag (c : nat) : list Z := [Z.of_nat c].

Definition cluster_name (c : nat) : string := "cluster-" +:+ pretty c.

Definition no_smoothing (image : @ndarray Z_Scalar) (radius : Z) : @ndarray Z_Scalar :=
  image.


Definition content_minimize (St : Type) (f : list Z -> St -> Exc Z * St) (s : St)
    (x0 : list Z) : Exc (@Autotrack.OptimizeResult Z_Scalar) :=
  inr (@Autotrack.mkResult Z_Scalar true "ok" x0).

(** A run over two seeds, each one a cluster of its own. *)
Definition run_of
    (minimize : forall St : Type, (list Z -> St -> Exc Z * St) -> St -> list Z ->
                                  Exc (@Autotrack.OptimizeResult Z_Scalar))
    (clusters : list nat) : Out (list (option (@Gaussian Z_Scalar))) :=
  @Autotrack.perform_gaussian_mixture_fit_from_watershed Z_Scalar 0 minimize
    nat nat (fun n => n) (fun _ => 2%nat) (fun _ => clusters)
    crop_all one_guess own_tag cluster_name no_smoothing 0 0 (fun t : Z => pretty t)
    image image 1.




(** An image of one plane without rows. *)
Definition rowless_image : @ndarray Z_Scalar := @mk_ndarray Z_Scalar 1 0 3 [ [] ].

(* END Samples *)
End Samples.

(** * Properties *)

(** ** Basic facts about the sequence and exception operations *)

Section SequenceFacts.
Context {A B : Type}.

Lemma length_slice (i j : nat) (l : list A) :
  length (slice i j l) = Nat.min (j - i) (length l - i).
Proof. unfold slice. rewrite length_take, length_drop. reflexivity. Qed.

Lemma range_step_lookup (n step k : nat) :
  (k < Nat.div (n + step - 1) step)%nat ->
  range_step n step !! k = Some (k * step)%nat.
Proof.
  intros Hk. unfold range_step.
  rewrite list_lookup_fmap, lookup_seq_lt by exact Hk. reflexivity.
Qed.

Lemma length_range_step (n step : nat) :
  length (range_step n step) = Nat.div (n + step - 1) step.
Proof. unfold range_step. rewrite length_map, length_seq. reflexivity. Qed.

Lemma emapM_inr (f : A -> Exc B) (l : list A) (r : list B) :
  emapM f l = inr r -> Forall2 (fun x y => f x = inr y) l r.
Proof.
  revert r. induction l as [|x l IH]; intros r; simpl.
  - intros [= <-]. constructor.
  - destruct (f x) as [e|y] eqn:Hx; [discriminate|].
    destruct (emapM f l) as [e|ys]; [discriminate|].
    intros [= <-]. constructor; [exact Hx | apply IH; reflexivity].
Qed.


Lemma emapM_raises (f : A -> Exc B) (l : list A) (x : A) :
  x ∈ l -> raises (f x) -> raises (emapM f l).
Proof.
  induction 1 as [x l|x y l _ IH]; intros Hx; simpl.
  - destruct Hx as [e ->]. exists e. reflexivity.
  - destruct (f y) as [e|v]; [exists e; reflexivity|].
    destruct (IH Hx) as [e ->]. exists e. reflexivity.
Qed.
End SequenceFacts.

(** ** The Gaussian class *)

Section GaussianFacts.
Import ParticleDetection.
Context {S : Scalar}.
Local Open Scope num_scope.

Lemma Gaussian_of_args_to_list (g : Gaussian) :
  Gaussian_of_args (to_list g) = inr g.
Proof. destruct g. reflexivity. Qed.

Lemma Gaussian_of_args_inr (args : list num) (g : Gaussian) :
  Gaussian_of_args args = inr g -> args = to_list g.
Proof.
  unfold Gaussian_of_args.
  do 11 (destruct args as [|? args]; try discriminate).
  intros [= <-]. reflexivity.
Qed.

Lemma Gaussian_of_args_length (args : list num) :
  returns (Gaussian_of_args args) <-> length args = 10%nat.
Proof.
  split.
  - intros [g Hg]. apply Gaussian_of_args_inr in Hg. subst. reflexivity.
  - intros Hlen.
    do 11 (destruct args as [|? args]; try discriminate).
    eexists. reflexivity.
Qed.

Lemma Gaussian_of_args_raises (args : list num) :
  length args <> 10%nat -> raises (Gaussian_of_args args).
Proof.
  intros Hlen. destruct (Gaussian_of_args args) as [e|g] eqn:E.
  - exists e. reflexivity.
  - exfalso. apply Hlen, Gaussian_of_args_length. exists g. exact E.
Qed.

(** On values, the object-level methods compute [translated] and
    [scaled]. *)
Lemma new_Gaussian_spec (h : list Gaussian) (g : Gaussian) :
  new_Gaussian h (to_list g) = inr (h ++ [g], length h).
Proof. unfold new_Gaussian. rewrite Gaussian_of_args_to_list. reflexivity. Qed.

Lemma update_fresh (h : list Gaussian) (g : Gaussian) (f : Gaussian -> Gaussian) :
  update (h ++ [g]) (length h) f = h ++ [f g].
Proof.
  unfold update. rewrite alter_app_r_alt by lia.
  rewrite Nat.sub_diag. reflexivity.
Qed.

Lemma scaled_obj_spec (h : list Gaussian) (self : nat) (b : Gaussian) (s : num) :
  h !! self = Some b ->
  scaled_obj h self s = inr (h ++ [scaled b s], length h).
Proof.
  intros Hb. unfold scaled_obj, deref. rewrite Hb. simpl.
  rewrite !update_fresh. reflexivity.
Qed.

Lemma translated_obj_spec (h : list Gaussian) (self : nat) (b : Gaussian) (dx dy dz : num) :
  h !! self = Some b ->
  translated_obj h self dx dy dz = inr (h ++ [translated b dx dy dz], length h).
Proof.
  intros Hb. unfold translated_obj, deref. rewrite Hb. simpl.
  rewrite !update_fresh. reflexivity.
Qed.

(** C6.  For every blob [b], held by the object at address [self], and
    every scale factor [s], [b.scaled(s)] returns a new object (an
    address that was not in use) whose mean is that of [b] multiplied by
    [s] in each coordinate and whose amplitude and six covariance
    entries are those of [b]; the receiver, and every other object of
    the store, has the fields it had before the call. *)
Theorem scaled_scales_mean_only (h : list Gaussian) (self : nat) (b : Gaussian) (s : num) :
  h !! self = Some b ->
  exists (h' : list Gaussian) (new_gaussian : nat),
    scaled_obj h self s = inr (h', new_gaussian) /\
    h !! new_gaussian = None /\
    h' !! new_gaussian =
      Some (mkGaussian (a b) (mu_x b * s) (mu_y b * s) (mu_z b * s)
              (cov_xx b) (cov_yy b) (cov_zz b) (cov_xy b) (cov_xz b) (cov_yz b)) /\
    h' !! self = Some b /\
    (forall p g, h !! p = Some g -> h' !! p = Some g).
Proof.
  intros Hb. exists (h ++ [scaled b s]), (length h).
  split; [apply scaled_obj_spec; exact Hb|].
  split; [apply lookup_ge_None_2; lia|].
  split; [rewrite lookup_app_r, Nat.sub_diag by lia; reflexivity|].
  split; [apply lookup_app_l_Some; exact Hb|].
  intros p g Hp. apply lookup_app_l_Some. exact Hp.
Qed.
End GaussianFacts.

Lemma scaled_scales_mean_only_witness :
  exists (h' : list (@ParticleDetection.Gaussian Z_Scalar)) (new_gaussian : nat),
    @ParticleDetection.scaled_obj Z_Scalar Samples.blob_store 0%nat 2 = inr (h', new_gaussian) /\
    Samples.blob_store !! new_gaussian = None /\
    h' !! new_gaussian =
      Some (@ParticleDetection.mkGaussian Z_Scalar 200 4 4 2 1 1 1 0 0 0) /\
    h' !! 0%nat = Some Samples.blob /\
    (forall p g, Samples.blob_store !! p = Some g -> h' !! p = Some g).
Proof.
  apply (@scaled_scales_mean_only Z_Scalar Samples.blob_store 0%nat Samples.blob 2).
  reflexivity.
Defined.

(** ** Printing computations *)

Lemma obind_lift_inr {A B} (v : A) (k : A -> Out B) :
  obind (lift (inr v)) k = k v.
Proof. unfold obind, lift. destruct (k v). reflexivity. Qed.


(** ** The low-resolution fit *)

Section LowresFacts.
Import ParticleDetection.
Context {S : Scalar}.
Local Open Scope num_scope.

Variable curve_fit :
  (list (Z * Z * Z) -> list num -> Exc (list num)) ->
  list (Z * Z * Z) -> list num -> list num ->
  Exc (list num * list (list num)).
Variable cv2_resize : list (list num) -> nat -> nat -> Exc (list (list num)).

Lemma resize_planes_returns (image : ndarray) (n : nat) (zs : list nat) :
  (forall plane, plane ∈ voxels image -> returns (cv2_resize plane n n)) ->
  Forall (fun z => (z < length (voxels image))%nat) zs ->
  forall new_image, returns (resize_planes cv2_resize image n new_image zs).
Proof.
  intros Hresize Hzs. induction Hzs as [|z zs Hz _ IH]; intros new_image; simpl.
  - eexists. reflexivity.
  - destruct (lookup_lt_is_Some_2 _ _ Hz) as [plane Hplane]. rewrite Hplane.
    destruct (Hresize plane) as [dst ->].
    { eapply list_elem_of_lookup_2. exact Hplane. }
    apply IH.
Qed.


End LowresFacts.

(** ** Malformed parameter vectors *)

Section MalformedFacts.
Import ParticleDetection Autotrack.
Context {S : Scalar}.
Variable uninit : num.
Variable draw_gradient : Gaussian -> ndarray -> nat -> Exc ndarray.

(** The method [m] raises in state [self]. *)
Definition mraises {A} (m : M A) (self : ModelAndImageDifference) : Prop :=
  raises (fst (m self)).

Lemma mbind_raises {A B} (m : M A) (k : A -> M B) self :
  mraises m self -> mraises (mbind_ m k) self.
Proof.
  unfold mraises, mbind_. intros [e He].
  destruct (m self) as [[e'|v] self']; simpl in *; [|discriminate].
  exists e'. reflexivity.
Qed.

Lemma mbind_raises_later {A B} (m : M A) (k : A -> M B) self :
  (forall v self', m self = (inr v, self') -> mraises (k v) self') ->
  mraises (mbind_ m k) self.
Proof.
  unfold mraises, mbind_. intros Hk.
  destruct (m self) as [[e|v] self'] eqn:E; simpl.
  - exists e. reflexivity.
  - apply Hk. reflexivity.
Qed.

Lemma _draw_gaussians_loop_raises (params : list num) (starts : list nat) :
  Exists (fun i => raises (Gaussian_of_args (slice i (i + 10) params))) starts ->
  forall last_gaussians_new self,
    mraises (_draw_gaussians_loop params last_gaussians_new starts) self.
Proof.
  induction starts as [|i starts IH]; intros Hex last_new self.
  - inversion Hex.
  - simpl. destruct (Gaussian_of_args (slice i (i + 10) params)) as [e|g] eqn:Hg.
    + apply mbind_raises. exists e. reflexivity.
    + assert (Hrest : Exists (fun i => raises (Gaussian_of_args (slice i (i + 10) params)))
                        starts).
      { inversion Hex as [? ? [e He]|]; subst; [|assumption].
        rewrite Hg in He. discriminate. }
      apply mbind_raises_later. intros g' self1 [= <- <-].
      apply mbind_raises_later. intros self2 self3 [= <- <-].
      apply mbind_raises_later. intros rendered self4 _.
      apply IH. exact Hrest.
Qed.

(** A vector whose length is positive and no multiple of ten has a last
    slice that is too short for the constructor. *)
Lemma malformed_has_short_slice (params : list num) :
  (0 < length params)%nat -> (length params mod 10 <> 0)%nat ->
  Exists (fun i => raises (Gaussian_of_args (slice i (i + 10) params)))
    (range_step (length params) 10).
Proof.
  intros Hpos Hmod. apply Exists_exists.
  set (n := length params) in *.
  exists ((n / 10) * 10)%nat. split.
  - eapply list_elem_of_lookup_2. apply range_step_lookup.
    pose proof (Nat.div_mod_eq n 10). pose proof (Nat.mod_upper_bound n 10).
    pose proof (Nat.div_mod_eq (n + 10 - 1) 10).
    pose proof (Nat.mod_upper_bound (n + 10 - 1) 10). lia.
  - apply Gaussian_of_args_raises. rewrite length_slice. fold n.
    pose proof (Nat.div_mod_eq n 10). pose proof (Nat.mod_upper_bound n 10). lia.
Qed.

Lemma _draw_gaussians_to_scratch_image_raises (params : list num) self :
  (0 < length params)%nat -> (length params mod 10 <> 0)%nat ->
  mraises (_draw_gaussians_to_scratch_image params) self.
Proof.
  intros Hpos Hmod. unfold _draw_gaussians_to_scratch_image.
  apply mbind_raises_later. intros [] self1 _.
  apply mbind_raises. apply _draw_gaussians_loop_raises.
  apply malformed_has_short_slice; assumption.
Qed.

(** C9.  For every parameter vector whose length is positive and not a
    multiple of ten, and in every state of the object, both
    [difference_with_image] and [gradient] raise an exception instead of
    returning a value. *)
Theorem malformed_params_raise (params : list num) (self : ModelAndImageDifference) :
  (0 < length params)%nat -> (length params mod 10 <> 0)%nat ->
  raises (fst (difference_with_image params self)) /\
  raises (fst (gradient uninit draw_gradient params self)).
Proof.
  intros Hpos Hmod. split.
  - apply (mbind_raises (_draw_gaussians_to_scratch_image params)).
    apply _draw_gaussians_to_scratch_image_raises; assumption.
  - apply (mbind_raises (_draw_gaussians_to_scratch_image params)).
    apply _draw_gaussians_to_scratch_image_raises; assumption.
Qed.
End MalformedFacts.

(** ** Slices and chunks *)

Section SliceFacts.
Context {A B : Type}.
Implicit Types (f : A -> B -> A) (l : list A) (g : list B).

(** What the element at [i] becomes: combined with its partner, if it
    has one. *)
Definition combined f (o : option A) (p : option B) : option A :=
  match o, p with
  | Some x, Some y => Some (f x y)
  | _, _ => o
  end.

Lemma zip_prefix_lookup f l g (i : nat) :
  zip_prefix f l g !! i = combined f (l !! i) (g !! i).
Proof.
  revert g i. induction l as [|x l IH]; intros [|y g] [|i]; simpl; try reflexivity.
  - destruct (l !! i); reflexivity.
  - apply IH.
Qed.

Lemma iop_slice_lookup f (start : nat) l g (i : nat) :
  iop_slice f start l g !! i =
    if (start <=? i)%nat then combined f (l !! i) (g !! (i - start)%nat) else l !! i.
Proof.
  revert l i. induction start as [|start IH]; intros l i.
  - simpl. rewrite Nat.sub_0_r. destruct l; apply zip_prefix_lookup.
  - destruct l as [|x l]; simpl.
    + destruct (match i with O => false | Datatypes.S m' => (start <=? m')%nat end);
        reflexivity.
    + destruct i as [|i]; simpl; [reflexivity|]. apply IH.
Qed.

Lemma length_zip_prefix f l g : length (zip_prefix f l g) = length l.
Proof.
  revert g. induction l as [|x l IH]; intros [|y g]; simpl; try reflexivity.
  rewrite IH. reflexivity.
Qed.

Lemma length_iop_slice f (start : nat) l g :
  length (iop_slice f start l g) = length l.
Proof.
  revert l. induction start as [|start IH]; intros l.
  - destruct l; apply length_zip_prefix.
  - destruct l as [|x l]; simpl; [reflexivity|]. rewrite IH. reflexivity.
Qed.



Lemma chunks_concat (n k : nat) (ll : list (list A)) :
  length ll = k -> Forall (fun r => length r = n) ll ->
  chunks n k (concat ll) = ll.
Proof.
  intros <- Hll. induction Hll as [|r ll Hr _ IH]; simpl; [reflexivity|].
  rewrite take_app_length' by (symmetry; exact Hr).
  rewrite drop_app_length' by (symmetry; exact Hr). rewrite IH. reflexivity.
Qed.

Lemma length_chunks (n k : nat) l : length (chunks n k l) = k.
Proof. revert l. induction k as [|k IH]; intros l; simpl; [|rewrite IH]; reflexivity. Qed.

End SliceFacts.

Lemma slice_clip_in_range (n : nat) (i : Z) :
  (0 <= i <= Z.of_nat n)%Z -> slice_clip n i = Z.to_nat i.
Proof.
  intros Hi. unfold slice_clip. destruct (Z.ltb_spec i 0); [lia|].
  rewrite Z.min_l by lia. reflexivity.
Qed.

Lemma length_arange (n : Z) : length (arange n) = Z.to_nat n.
Proof. unfold arange. rewrite length_map, length_seq. reflexivity. Qed.


Lemma arange_nonpos (n : Z) : (n <= 0)%Z -> arange n = [].
Proof. intros Hn. unfold arange. replace (Z.to_nat n) with 0%nat by lia. reflexivity. Qed.

(** ** Arrays *)

Section ArrayFacts.
Context {S : Scalar}.
Local Open Scope num_scope.

Lemma length_concat_uniform {A} (n : nat) (ll : list (list A)) :
  Forall (fun r => length r = n) ll -> length (concat ll) = (length ll * n)%nat.
Proof.
  induction 1 as [|r ll Hr _ IH]; simpl; [reflexivity|].
  rewrite length_app, IH, Hr. reflexivity.
Qed.

Lemma Forall_concat {A} (P : A -> Prop) (ll : list (list A)) :
  Forall (Forall P) ll -> Forall P (concat ll).
Proof.
  induction 1 as [|r ll Hr _ IH]; simpl; [constructor|].
  apply Forall_app. split; assumption.
Qed.

(** Reshaping the flattened elements of a well-formed array to its own
    shape gives the array back. *)
Lemma reshape3_ravel (a : ndarray) :
  wf_ndarray a ->
  reshape3 (ravel a) (Z.of_nat (shape0 a)) (Z.of_nat (shape1 a)) (Z.of_nat (shape2 a))
  = inr a.
Proof.
  destruct a as [n0 n1 n2 v]. unfold wf_ndarray, ravel. simpl.
  intros [Hlen Hplanes].
  assert (Hrows : Forall (fun r => length r = n2) (concat v)).
  { apply Forall_concat. eapply Forall_impl; [exact Hplanes|].
    intros p [_ Hp]. exact Hp. }
  assert (Hlen1 : length (concat v) = (n0 * n1)%nat).
  { rewrite (length_concat_uniform n1), Hlen; [reflexivity|].
    eapply Forall_impl; [exact Hplanes|]. intros p [Hp _]. exact Hp. }
  assert (Hflat : length (concat (concat v)) = (n0 * n1 * n2)%nat).
  { rewrite (length_concat_uniform n2), Hlen1 by exact Hrows. reflexivity. }
  unfold reshape3.
  destruct (Z.ltb_spec (Z.of_nat n0) 0); [lia|].
  destruct (Z.ltb_spec (Z.of_nat n1) 0); [lia|].
  destruct (Z.ltb_spec (Z.of_nat n2) 0); [lia|].
  rewrite !Nat2Z.id. cbn [Nat.add Nat.ltb Nat.leb Nat.eqb andb].
  rewrite Hflat, Nat.eqb_refl. cbn [negb].
  rewrite (chunks_concat n2 (n0 * n1) (concat v)) by assumption.
  rewrite (chunks_concat n1 n0 v); [reflexivity|exact Hlen|].
  eapply Forall_impl; [exact Hplanes|]. intros p [Hp _]. exact Hp.
Qed.

Lemma wf_tabulate3 (f : Z -> Z -> Z -> num) (sz sy sx : Z) :
  wf_ndarray (mk_ndarray (Z.to_nat sz) (Z.to_nat sy) (Z.to_nat sx)
                (tabulate3 f sz sy sx)).
Proof.
  unfold wf_ndarray, tabulate3. simpl. split.
  - rewrite length_map. apply length_arange.
  - apply Forall_map, Forall_forall. intros z _. simpl. split.
    + rewrite length_map. apply length_arange.
    + apply Forall_map, Forall_forall. intros y _. simpl.
      rewrite length_map. apply length_arange.
Qed.

Lemma map_positions {B} (f : Z * Z * Z -> B) (sx sy sz : Z) :
  map f (ParticleDetection._get_positions sx sy sz) =
  concat (concat (map (fun z => map (fun y => map (fun x => f (x, y, z)) (arange sx))
                                  (arange sy)) (arange sz))).
Proof.
  unfold ParticleDetection._get_positions.
  rewrite concat_map, map_map.
  induction (arange sz) as [|z zs IHz]; simpl; [reflexivity|].
  rewrite IHz, concat_app. f_equal.
  rewrite concat_map, map_map. f_equal.
  apply map_ext. intros y. apply map_map.
Qed.

Lemma reshape3_positions (f : Z -> Z -> Z -> num) (sx sy sz : Z) :
  (0 <= sx)%Z -> (0 <= sy)%Z -> (0 <= sz)%Z ->
  reshape3 (map (fun p => let '(x, y, z) := p in f x y z)
              (ParticleDetection._get_positions sx sy sz)) sz sy sx
  = inr (mk_ndarray (Z.to_nat sz) (Z.to_nat sy) (Z.to_nat sx) (tabulate3 f sz sy sx)).
Proof.
  intros Hx Hy Hz. rewrite map_positions.
  pose proof (reshape3_ravel _ (wf_tabulate3 f sz sy sx)) as Hr.
  unfold ravel in Hr. simpl in Hr. rewrite !Z2Nat.id in Hr by assumption.
  exact Hr.
Qed.
End ArrayFacts.

(** ** Adding into a view *)

Section ViewFacts.
Context {S : Scalar}.
Local Open Scope num_scope.

Lemma get_Some (a : ndarray) (z y x : nat) (v : num) :
  get a z y x = Some v <->
  exists plane row, voxels a !! z = Some plane /\ plane !! y = Some row /\ row !! x = Some v.
Proof.
  unfold get. split.
  - destruct (voxels a !! z) as [plane|]; simpl; [|discriminate].
    destruct (plane !! y) as [row|] eqn:Hrow; simpl; [|discriminate].
    intros Hv. exists plane, row. auto.
  - intros (plane & row & -> & Hrow & Hv). simpl. rewrite Hrow. exact Hv.
Qed.

(** The element of [g] that lands on the element [z, y, x] of a view
    that starts at [sz, sy, sx]. *)
Definition partner (g : ndarray) (sz sy sx z y x : nat) : option num :=
  if (sz <=? z)%nat && (sy <=? y)%nat && (sx <=? x)%nat
  then get g (z - sz) (y - sy) (x - sx) else None.

Lemma get_iop_slice3 (V G : list (list (list num))) (s0 s1 s2 sz sy sx : nat)
    (z y x : nat) (v : num) :
  get (mk_ndarray s0 s1 s2 V) z y x = Some v ->
  get (mk_ndarray s0 s1 s2 (iop_slice (iop_slice (iop_slice add sx) sy) sz V G)) z y x
  = Some (match partner (mk_ndarray 0 0 0 G) sz sy sx z y x with
          | Some w => v + w
          | None => v
          end).
Proof.
  intros Hv. apply get_Some in Hv. destruct Hv as (P & R & HP & HR & Hv).
  simpl in HP. unfold partner, get. simpl.
  rewrite iop_slice_lookup, HP.
  destruct (sz <=? z)%nat; simpl; [|rewrite HR; simpl; rewrite Hv; reflexivity].
  destruct (G !! (z - sz)%nat) as [GP|]; simpl;
    [|rewrite HR; simpl; rewrite Hv; destruct (_ && _); reflexivity].
  rewrite iop_slice_lookup, HR.
  destruct (sy <=? y)%nat; simpl; [|rewrite Hv; reflexivity].
  destruct (GP !! (y - sy)%nat) as [GR|]; simpl;
    [|rewrite Hv; destruct (sx <=? x)%nat; reflexivity].
  rewrite iop_slice_lookup, Hv.
  destruct (sx <=? x)%nat; simpl; [|reflexivity].
  destruct (GR !! (x - sx)%nat); reflexivity.
Qed.

Lemma iadd_view_inr (image : ndarray) (z0 z1 y0 y1 x0 x1 : Z) (g image' : ndarray) :
  iadd_view image z0 z1 y0 y1 x0 x1 g = inr image' ->
  same_shape image image' /\
  shape0 g = (slice_clip (shape0 image) z1 - slice_clip (shape0 image) z0)%nat /\
  shape1 g = (slice_clip (shape1 image) y1 - slice_clip (shape1 image) y0)%nat /\
  shape2 g = (slice_clip (shape2 image) x1 - slice_clip (shape2 image) x0)%nat /\
  forall z y x v,
    get image z y x = Some v ->
    get image' z y x =
      Some (match partner g (slice_clip (shape0 image) z0)
                    (slice_clip (shape1 image) y0) (slice_clip (shape2 image) x0)
                    z y x with
            | Some w => v + w
            | None => v
            end).
Proof.
  unfold iadd_view.
  destruct (Nat.eqb_spec (shape0 g)
              (slice_clip (shape0 image) z1 - slice_clip (shape0 image) z0)); simpl;
    [|discriminate].
  destruct (Nat.eqb_spec (shape1 g)
              (slice_clip (shape1 image) y1 - slice_clip (shape1 image) y0)); simpl;
    [|discriminate].
  destruct (Nat.eqb_spec (shape2 g)
              (slice_clip (shape2 image) x1 - slice_clip (shape2 image) x0)); simpl;
    [|discriminate].
  intros [= <-]. split; [repeat split|]. do 3 (split; [assumption|]).
  intros z y x v Hv. destruct image as [s0 s1 s2 V]. simpl in *.
  apply (get_iop_slice3 V (voxels g)). exact Hv.
Qed.


Lemma iadd_view_returns (image : ndarray) (z0 z1 y0 y1 x0 x1 : Z) (g : ndarray) :
  shape0 g = (slice_clip (shape0 image) z1 - slice_clip (shape0 image) z0)%nat ->
  shape1 g = (slice_clip (shape1 image) y1 - slice_clip (shape1 image) y0)%nat ->
  shape2 g = (slice_clip (shape2 image) x1 - slice_clip (shape2 image) x0)%nat ->
  returns (iadd_view image z0 z1 y0 y1 x0 x1 g).
Proof.
  intros H0 H1 H2. unfold iadd_view. rewrite H0, H1, H2, !Nat.eqb_refl. simpl.
  eexists. reflexivity.
Qed.



End ViewFacts.

(** ** Rendering one blob *)

Section DrawFacts.
Import ParticleDetection.
Context {S : Scalar}.
Local Open Scope num_scope.

(** The value that [draw] computes for the element [x, y, z] of the
    sub-array: the Gaussian in the coordinates of the window, whose
    origin is [ox, oy, oz]. *)
Definition local_value (g : Gaussian) (cov_inv : matrix) (ox oy oz : Z) (x y z : Z)
  : num :=
  gauss_at cov_inv (a g) (mu_x g - of_Z ox) (mu_y g - of_Z oy) (mu_z g - of_Z oz)
    (of_Z x, of_Z y, of_Z z).

Lemma draw_render (g : Gaussian) (image : ndarray) :
  draw g image = (r ← render g image; add_in_window g image r).
Proof.
  unfold draw, render, add_in_window.
  destruct (_3d_gauss _ _ _ _ _ _ _ _ _ _ _); reflexivity.
Qed.

Lemma inv3_total (m : matrix) :
  det3 m <> zero -> returns (inv3 m).
Proof.
  intros Hdet. destruct m as [[[[m00 m01] m02] [[m10 m11] m12]] [[m20 m21] m22]] eqn:E.
  unfold inv3. destruct (num_eq_dec _ _) as [Hz|_]; [contradiction|].
  eexists. reflexivity.
Qed.



Lemma concat_map_nil {A B} (f : A -> list B) (l : list A) :
  (forall x, f x = []) -> concat (map f l) = [].
Proof.
  intros Hf. induction l as [|x l IH]; simpl; [reflexivity|].
  rewrite Hf, IH. reflexivity.
Qed.

Lemma positions_empty (sx sy sz : Z) :
  (sx <= 0 \/ sy <= 0 \/ sz <= 0)%Z -> _get_positions sx sy sz = [].
Proof.
  intros H. unfold _get_positions. destruct H as [H|[H|H]].
  - apply concat_map_nil. intros z. apply concat_map_nil. intros y.
    rewrite (arange_nonpos sx) by exact H. reflexivity.
  - apply concat_map_nil. intros z.
    rewrite (arange_nonpos sy) by exact H. reflexivity.
  - rewrite (arange_nonpos sz) by exact H. reflexivity.
Qed.



Lemma _3d_gauss_map (pos : list (Z * Z * Z)) (g : Gaussian) (mx my mz : num)
    (ci : matrix) :
  inv3 (covariance_matrix g) = inr ci ->
  _3d_gauss pos (a g) mx my mz (cov_xx g) (cov_yy g) (cov_zz g)
    (cov_xy g) (cov_xz g) (cov_yz g)
  = inr (map (fun p => let '(x, y, z) := p in
                       gauss_at ci (a g) mx my mz (of_Z x, of_Z y, of_Z z)) pos).
Proof.
  intros Hci. unfold _3d_gauss. fold (covariance_matrix g). rewrite Hci. simpl.
  unfold ret. f_equal. apply map_ext. intros [[x y] z]. reflexivity.
Qed.

(** The render of a blob whose window is not inverted: the local
    values, on the shape of the window. *)
Lemma render_window_ok (g : Gaussian) (image : ndarray) (ci : matrix) :
  window_ok g image ->
  inv3 (covariance_matrix g) = inr ci ->
  let ox := window_start (mu_x g) (cov_xx g) in
  let oy := window_start (mu_y g) (cov_yy g) in
  let oz := window_start (mu_z g) (cov_zz g) in
  let sx := (window_end (shape2 image) (mu_x g) (cov_xx g) - ox)%Z in
  let sy := (window_end (shape1 image) (mu_y g) (cov_yy g) - oy)%Z in
  let sz := (window_end (shape0 image) (mu_z g) (cov_zz g) - oz)%Z in
  render g image =
    inr (mk_ndarray (Z.to_nat sz) (Z.to_nat sy) (Z.to_nat sx)
           (tabulate3 (local_value g ci ox oy oz) sz sy sx)).
Proof.
  intros (Hz & Hy & Hx) Hci ox oy oz sx sy sz. unfold render.
  fold ox oy oz. fold sx sy sz.
  rewrite (_3d_gauss_map _ g _ _ _ ci Hci). simpl.
  apply (reshape3_positions (local_value g ci ox oy oz)); unfold sx, sy, sz, ox, oy, oz; lia.
Qed.



Lemma window_start_nonneg (mu cov : num) : (0 <= window_start mu cov)%Z.
Proof. unfold window_start. lia. Qed.

Lemma window_end_le (shape : nat) (mu cov : num) :
  (window_end shape mu cov <= Z.of_nat shape)%Z.
Proof. unfold window_end. lia. Qed.






Lemma add_render_returns (g : Gaussian) (image : ndarray) (ci : matrix) :
  window_ok g image ->
  inv3 (covariance_matrix g) = inr ci ->
  exists r image', render g image = inr r /\ add_in_window g image r = inr image'.
Proof.
  intros Hok Hci. pose proof (render_window_ok g image ci Hok Hci) as Hr.
  cbv zeta in Hr. eexists. 
  destruct Hok as (Hz & Hy & Hx).
  pose proof (window_start_nonneg (mu_x g) (cov_xx g)) as Hox.
  pose proof (window_start_nonneg (mu_y g) (cov_yy g)) as Hoy.
  pose proof (window_start_nonneg (mu_z g) (cov_zz g)) as Hoz.
  pose proof (window_end_le (shape2 image) (mu_x g) (cov_xx g)) as Hmx.
  pose proof (window_end_le (shape1 image) (mu_y g) (cov_yy g)) as Hmy.
  pose proof (window_end_le (shape0 image) (mu_z g) (cov_zz g)) as Hmz.
  edestruct (iadd_view_returns image) as [image' Himage'];
    [| | | exists image'; split; [exact Hr | exact Himage']];
    simpl; rewrite !slice_clip_in_range by lia; lia.
Qed.
End DrawFacts.

(** ** Exact arithmetic *)

Lemma Z_ScalarLaws : ScalarLaws Z_Scalar.
Proof.
  constructor; simpl; try reflexivity; try (intros; lia).
  constructor; intros; simpl; ring.
Qed.

Section LawFacts.
Import ParticleDetection.
Context {S : Scalar} {L : ScalarLaws S}.
Local Open Scope num_scope.

Add Ring num_ring_inst : num_ring.






Lemma draw_returns (g : Gaussian) (image : ndarray) :
  window_ok g image -> det3 (covariance_matrix g) <> zero ->
  returns (draw g image).
Proof.
  intros Hok Hdet. destruct (inv3_total _ Hdet) as [ci Hci].
  destruct (add_render_returns g image ci Hok Hci) as (r & image' & Hr & Hadd).
  exists image'. rewrite draw_render, Hr. exact Hadd.
Qed.



(** *** Translation *)




Lemma get_zeros_None (n0 n1 n2 z y x : nat) :
  ~ ((z < n0)%nat /\ (y < n1)%nat /\ (x < n2)%nat) ->
  get (zeros n0 n1 n2) z y x = None.
Proof.
  intros Hno. destruct (get (zeros n0 n1 n2) z y x) as [v|] eqn:E; [exfalso|reflexivity].
  apply get_Some in E. destruct E as (plane & row & Hp & Hr & Hv). simpl in Hp.
  apply lookup_replicate in Hp. destruct Hp as [-> Hz].
  apply lookup_replicate in Hr. destruct Hr as [-> Hy].
  apply lookup_replicate in Hv. destruct Hv as [_ Hx]. tauto.
Qed.


Lemma zero_add (v : num) : zero + v = v.
Proof. ring. Qed.


End LawFacts.


(** ** Layout of the buffers *)

Section LayoutFacts.
Context {S : Scalar}.
Local Open Scope num_scope.

Lemma map_zip_with_same {A B C} (h : A -> C) (h' : B -> C) (f : A -> B -> A)
    (l : list A) (g : list B) :
  map h l = map h' g ->
  (forall x y, h x = h' y -> h (f x y) = h x) ->
  map h (zip_with f l g) = map h l.
Proof.
  intros Hlg Hf. revert g Hlg.
  induction l as [|x l IH]; intros [|y g]; simpl; try discriminate; try reflexivity.
  intros [= Hxy Hrest]. rewrite Hf by exact Hxy. rewrite IH by exact Hrest.
  reflexivity.
Qed.

Lemma map_zip_prefix {A B C} (h : A -> C) (f : A -> B -> A) (l : list A) (g : list B) :
  (forall x y, h (f x y) = h x) -> map h (zip_prefix f l g) = map h l.
Proof.
  intros Hf. revert g. induction l as [|x l IH]; intros [|y g]; simpl; try reflexivity.
  rewrite Hf, IH. reflexivity.
Qed.

Lemma map_iop_slice {A B C} (h : A -> C) (f : A -> B -> A) (start : nat)
    (l : list A) (g : list B) :
  (forall x y, h (f x y) = h x) -> map h (iop_slice f start l g) = map h l.
Proof.
  intros Hf. revert l. induction start as [|start IH]; intros l.
  - destruct l; apply map_zip_prefix; exact Hf.
  - destruct l as [|x l]; simpl; [reflexivity|]. rewrite IH. reflexivity.
Qed.

Lemma structure_map3 (f : num -> num) (v : list (list (list num))) :
  structure (map3 f v) = structure v.
Proof.
  unfold structure, map3. rewrite map_map. apply map_ext. intros plane.
  rewrite map_map. apply map_ext. intros row. rewrite map_map. reflexivity.
Qed.

Lemma structure_zip3 (f : num -> num -> num) (v w : list (list (list num))) :
  structure v = structure w -> structure (zip3 f v w) = structure v.
Proof.
  unfold structure, zip3, map3. intros Hvw.
  apply (map_zip_with_same _ _ _ v w Hvw). intros P Q HPQ.
  apply (map_zip_with_same _ _ _ P Q HPQ). intros R T HRT.
  apply (map_zip_with_same _ _ _ R T HRT). reflexivity.
Qed.

Lemma structure_iop_slice3 (V G : list (list (list num))) (sz sy sx : nat) :
  structure (iop_slice (iop_slice (iop_slice add sx) sy) sz V G) = structure V.
Proof.
  unfold structure, map3. apply map_iop_slice. intros P GP.
  apply map_iop_slice. intros R GR. apply map_iop_slice. reflexivity.
Qed.

Lemma same_layout_refl (a : ndarray) : same_layout a a.
Proof. repeat split. Qed.

Lemma same_layout_sym (a b : ndarray) : same_layout a b -> same_layout b a.
Proof. intros ((? & ? & ?) & ?). repeat split; congruence. Qed.

Lemma same_layout_trans (a b c : ndarray) :
  same_layout a b -> same_layout b c -> same_layout a c.
Proof.
  intros ((? & ? & ?) & ?) ((? & ? & ?) & ?). repeat split; congruence.
Qed.

Lemma same_layout_fill (c : num) (a : ndarray) : same_layout (fill c a) a.
Proof. repeat split. simpl. apply structure_map3. Qed.

Lemma same_layout_imap (f : num -> num) (a : ndarray) : same_layout (imap f a) a.
Proof. repeat split. simpl. apply structure_map3. Qed.

Lemma same_layout_iop (f : num -> num -> num) (a b : ndarray) :
  same_layout a b -> same_layout (iop f a b) a.
Proof.
  intros (_ & Hs). repeat split. simpl. apply structure_zip3. exact Hs.
Qed.

Lemma fill_same_layout (c : num) (a b : ndarray) :
  same_layout a b -> fill c a = fill c b.
Proof.
  intros ((H0 & H1 & H2) & Hs). unfold fill. rewrite H0, H1, H2. f_equal.
  unfold structure, map3 in *.
  revert Hs. generalize (voxels b). induction (voxels a) as [|P v IH];
    intros [|Q w]; simpl; try discriminate; try reflexivity.
  intros [= HPQ Hvw]. rewrite (IH w Hvw). f_equal.
  clear -HPQ. revert Q HPQ. induction P as [|R P IH];
    intros [|T Q]; simpl; try discriminate; try reflexivity.
  intros [= HRT HPQ]. rewrite (IH Q HPQ). f_equal.
  clear -HRT. revert T HRT. induction R as [|r R IH];
    intros [|t T]; simpl; try discriminate; try reflexivity.
  intros [= HRT]. rewrite (IH T HRT). reflexivity.
Qed.

Lemma iadd_view_layout (image : ndarray) (z0 z1 y0 y1 x0 x1 : Z) (g image' : ndarray) :
  iadd_view image z0 z1 y0 y1 x0 x1 g = inr image' -> same_layout image' image.
Proof.
  unfold iadd_view. destruct (_ && _); [|discriminate].
  intros [= <-]. repeat split. simpl. apply structure_iop_slice3.
Qed.

Lemma render_same_shape (g : ParticleDetection.Gaussian) (a b : ndarray) :
  same_shape a b -> render g a = render g b.
Proof. intros (H0 & H1 & H2). unfold render. rewrite H0, H1, H2. reflexivity. Qed.
End LayoutFacts.

(** ** The residual model *)

Section ModelFacts.
Import ParticleDetection Autotrack.
Context {S : Scalar}.
Local Open Scope num_scope.

Lemma dict_get_set (d : dict) (k k' : Gaussian) (v : ndarray) :
  dict_get (dict_set d k v) k' = if Gaussian_eq_dec k k' then Some v else dict_get d k'.
Proof.
  induction d as [|[k0 v0] d IH]; simpl.
  - reflexivity.
  - destruct (Gaussian_eq_dec k0 k) as [->|Hne]; simpl.
    + destruct (Gaussian_eq_dec k k'); reflexivity.
    + destruct (Gaussian_eq_dec k0 k') as [->|Hne'].
      * destruct (Gaussian_eq_dec k k') as [->|_]; [contradiction|reflexivity].
      * exact IH.
Qed.

Lemma coherent_nil (target : ndarray) : coherent target [].
Proof. intros k v. discriminate. Qed.

Lemma coherent_set (target : ndarray) (d : dict) (k : Gaussian) (v : ndarray) :
  coherent target d -> render k target = inr v -> coherent target (dict_set d k v).
Proof.
  intros Hd Hk k' v'. rewrite dict_get_set.
  destruct (Gaussian_eq_dec k k') as [<-|_]; [|apply Hd].
  intros [= <-]. exact Hk.
Qed.

(** With a cached render that is the render of the blob, the cached
    [draw] adds what the plain [draw] adds, and returns the render. *)
Lemma autotrack_draw_spec (g : Gaussian) (image : ndarray) (cached : option ndarray) :
  (forall c, cached = Some c -> render g image = inr c) ->
  Autotrack.draw g image cached =
    match render g image with
    | inl e => inl e
    | inr r =>
        match add_in_window g image r with
        | inl e => inl e
        | inr image' => inr (image', r)
        end
    end.
Proof.
  intros Hc. destruct cached as [c|].
  - rewrite (Hc c eq_refl). unfold Autotrack.draw, add_in_window. simpl.
    destruct (iadd_view _ _ _ _ _ _ _ _); reflexivity.
  - unfold Autotrack.draw, render, add_in_window.
    destruct (_3d_gauss _ _ _ _ _ _ _ _ _ _ _) as [e|flat]; [reflexivity|]. simpl.
    destruct (reshape3 _ _ _ _) as [e|r]; [reflexivity|]. simpl.
    destruct (iadd_view _ _ _ _ _ _ _ _); reflexivity.
Qed.

Lemma draw_spec (g : Gaussian) (image : ndarray) :
  ParticleDetection.draw g image =
    match render g image with
    | inl e => inl e
    | inr r => add_in_window g image r
    end.
Proof. rewrite draw_render. destruct (render g image); reflexivity. Qed.

(** The invariant of an instance created for [target]: the target is
    never replaced, the scratch buffer keeps its layout, and the cache
    holds renders of its keys. *)
Definition inv (target : ndarray) (self : ModelAndImageDifference) : Prop :=
  _data_image self = target /\
  same_layout (_scratch_image self) target /\
  coherent target (_last_gaussians self).

(** What a step leaves alone. *)
Definition frame (self self' : ModelAndImageDifference) : Prop :=
  _data_image self' = _data_image self /\
  _scratch_image_gradient self' = _scratch_image_gradient self /\
  _last_gaussians self' = _last_gaussians self.

Lemma frame_refl (self : ModelAndImageDifference) : frame self self.
Proof. repeat split. Qed.

Lemma frame_trans (s1 s2 s3 : ModelAndImageDifference) :
  frame s1 s2 -> frame s2 s3 -> frame s1 s3.
Proof. intros (? & ? & ?) (? & ? & ?). repeat split; congruence. Qed.

Lemma frame_set_scratch_image (f : ndarray -> ndarray) (self : ModelAndImageDifference) :
  frame self (set_scratch_image f self).
Proof. repeat split. Qed.

Lemma _draw_gaussians_loop_sim (target : ndarray) (params : list num)
    (starts : list nat) :
  forall (last_gaussians_new : dict) (self : ModelAndImageDifference),
    inv target self -> coherent target last_gaussians_new ->
    match _draw_gaussians_loop params last_gaussians_new starts self,
          render_sum params (_scratch_image self) starts with
    | (inl e, self'), inl e' =>
        e = e' /\ inv target self' /\ frame self self'
    | (inr new, self'), inr image =>
        _scratch_image self' = image /\ coherent target new /\
        inv target self' /\ frame self self'
    | _, _ => False
    end.
Proof.
  induction starts as [|i starts IH]; intros new self Hinv Hnew.
  - simpl. split; [reflexivity|]. split; [exact Hnew|].
    split; [exact Hinv|apply frame_refl].
  - simpl. unfold mbind_ at 1, mlift.
    destruct (Gaussian_of_args (slice i (i + 10) params)) as [e|g]; simpl.
    { split; [reflexivity|]. split; [exact Hinv|apply frame_refl]. }
    unfold mbind_ at 1, mget. unfold mbind_ at 1, draw_to_scratch.
    pose proof Hinv as (Hdata & Hlayout & Hcache).
    assert (Hrender : render g (_scratch_image self) = render g target)
      by (apply render_same_shape, Hlayout).
    rewrite autotrack_draw_spec, draw_spec.
    2:{ intros c Hc. rewrite Hrender. apply Hcache. exact Hc. }
    destruct (render g (_scratch_image self)) as [e|r] eqn:Hr; simpl.
    { split; [reflexivity|]. split; [exact Hinv|apply frame_refl]. }
    destruct (add_in_window g (_scratch_image self) r) as [e|image'] eqn:Hadd; simpl.
    { split; [reflexivity|]. split; [exact Hinv|apply frame_refl]. }
    assert (Hinv' : inv target (set_scratch_image (fun _ => image') self)).
    { split; [exact Hdata|]. split; [|exact Hcache]. simpl.
      eapply same_layout_trans; [eapply iadd_view_layout; exact Hadd | exact Hlayout]. }
    assert (Hnew' : coherent target (dict_set new g r)).
    { apply coherent_set; [exact Hnew | symmetry; exact Hrender]. }
    specialize (IH _ _ Hinv' Hnew').
    change (_scratch_image (set_scratch_image (fun _ => image') self)) with image' in IH.
    destruct (_draw_gaussians_loop params (dict_set new g r) starts
                (set_scratch_image (fun _ => image') self)) as [[e|new'] self'];
      destruct (render_sum params image' starts) as [e'|image'']; try contradiction.
    + destruct IH as (H1 & H2 & H3). split; [exact H1|]. split; [exact H2|].
      eapply frame_trans; [apply frame_set_scratch_image | exact H3].
    + destruct IH as (H1 & H2 & H3 & H4). split; [exact H1|]. split; [exact H2|].
      split; [exact H3|].
      eapply frame_trans; [apply frame_set_scratch_image | exact H4].
Qed.

(** What the drawing of the model sum leaves alone. *)
Definition frame_draw (self self' : ModelAndImageDifference) : Prop :=
  _data_image self' = _data_image self /\
  _scratch_image_gradient self' = _scratch_image_gradient self.

Lemma _draw_gaussians_to_scratch_image_sim (target : ndarray) (params : list num)
    (self : ModelAndImageDifference) :
  inv target self ->
  match _draw_gaussians_to_scratch_image params self, model_sum target params with
  | (inl e, self'), inl e' => e = e' /\ inv target self' /\ frame_draw self self'
  | (inr _, self'), inr m =>
      _scratch_image self' = m /\ inv target self' /\ frame_draw self self'
  | _, _ => False
  end.
Proof.
  intros (Hdata & Hlayout & Hcache).
  unfold _draw_gaussians_to_scratch_image, model_sum.
  unfold mbind_ at 1, mmodify at 1.
  assert (Hinv0 : inv target (set_scratch_image (fill zero) self)).
  { split; [exact Hdata|]. split; [|exact Hcache]. simpl.
    eapply same_layout_trans; [apply same_layout_fill | exact Hlayout]. }
  pose proof (_draw_gaussians_loop_sim target params
                (range_step (length params) 10) [] _ Hinv0 (coherent_nil target)) as Hsim.
  change (_scratch_image (set_scratch_image (fill zero) self))
    with (fill zero (_scratch_image self)) in Hsim.
  rewrite (fill_same_layout zero _ _ Hlayout) in Hsim.
  unfold mbind_ at 1.
  destruct (_draw_gaussians_loop params [] (range_step (length params) 10)
              (set_scratch_image (fill zero) self)) as [[e|new] self'];
    destruct (render_sum params (fill zero target) (range_step (length params) 10))
      as [e'|m]; try contradiction.
  - destruct Hsim as (He & Hinv' & (Hf1 & Hf2 & Hf3)).
    split; [exact He|]. split; [exact Hinv'|]. split; assumption.
  - destruct Hsim as (Hm & Hnew & (Hd' & Hl' & _) & (Hf1 & Hf2 & Hf3)).
    unfold mmodify. simpl. split; [exact Hm|]. split.
    + split; [exact Hd'|]. split; [exact Hl'|exact Hnew].
    + split; assumption.
Qed.

(** The squared residual as [difference_with_image] leaves it in the
    scratch buffer. *)
Definition squared (self : ModelAndImageDifference) : ndarray :=
  imap (fun v => v * v) (iop sub (_scratch_image self) (_data_image self)).

Lemma difference_with_image_unfold (params : list num) (self : ModelAndImageDifference) :
  difference_with_image params self =
    match _draw_gaussians_to_scratch_image params self with
    | (inl e, self') => (inl e, self')
    | (inr _, self') =>
        (inr (asum (squared self')), set_scratch_image (fun _ => squared self') self')
    end.
Proof.
  unfold difference_with_image, mbind_, mmodify, mget, mreturn.
  destruct (_draw_gaussians_to_scratch_image params self) as [[e|[]] self'];
    reflexivity.
Qed.

Lemma difference_with_image_sim (target : ndarray) (params : list num)
    (self : ModelAndImageDifference) :
  inv target self ->
  fst (difference_with_image params self) = sum_of_squared_differences target params /\
  inv target (snd (difference_with_image params self)) /\
  frame_draw self (snd (difference_with_image params self)).
Proof.
  intros Hinv. pose proof (_draw_gaussians_to_scratch_image_sim target params self Hinv)
    as Hsim.
  rewrite difference_with_image_unfold.
  unfold sum_of_squared_differences, residual.
  destruct (_draw_gaussians_to_scratch_image params self) as [[e|[]] self'];
    destruct (model_sum target params) as [e'|m]; try contradiction.
  - destruct Hsim as (-> & Hinv' & Hf). simpl. auto.
  - destruct Hsim as (Hm & (Hd & Hl & Hc) & Hf). simpl. unfold squared.
    rewrite Hd, Hm. split; [reflexivity|]. split; [|exact Hf].
    split; [exact Hd|]. split; [|exact Hc]. simpl.
    eapply same_layout_trans; [apply same_layout_imap|].
    eapply same_layout_trans; [apply same_layout_iop; rewrite <- Hm; exact Hl|].
    rewrite <- Hm. exact Hl.
Qed.

(** *** The gradient *)

Section Gradient.
Variable uninit : num.
Variable draw_gradient : Gaussian -> ndarray -> nat -> Exc ndarray.

(** The doubled residual as [gradient] leaves it in the scratch
    buffer. *)
Definition doubled (self : ModelAndImageDifference) : ndarray :=
  imap (fun v => v * of_Z 2) (iop sub (_scratch_image self) (_data_image self)).

Lemma gradient_unfold (params : list num) (self : ModelAndImageDifference) :
  gradient uninit draw_gradient params self =
    match _draw_gaussians_to_scratch_image params self with
    | (inl e, self') => (inl e, self')
    | (inr _, self') =>
        gradient_outer draw_gradient params (replicate (length params) uninit)
          (seq 0 (length params / 10))
          (set_scratch_image (fun _ => doubled self') self')
    end.
Proof.
  unfold gradient, mbind_, mmodify.
  destruct (_draw_gaussians_to_scratch_image params self) as [[e|[]] self'];
    reflexivity.
Qed.

(** The entries of the gradient as functions of the target and of
    the doubled residual [r2], without the buffers. *)
Fixpoint inner_entries (target r2 : ndarray) (g : Gaussian) (j : nat)
    (G : list num) (nrs : list nat) : Exc (list num) :=
  match nrs with
  | [] => ret G
  | k :: nrs' =>
      D ← draw_gradient g (fill zero target) k;
      inner_entries target r2 g j (<[(j * 10 + k)%nat := asum (iop mul D r2)]> G) nrs'
  end.

Fixpoint outer_entries (target r2 : ndarray) (params : list num)
    (G : list num) (indices : list nat) : Exc (list num) :=
  match indices with
  | [] => ret G
  | j :: indices' =>
      g ← Gaussian_of_args (slice (j * 10) (j * 10 + 10) params);
      G' ← inner_entries target r2 g j G (seq 0 10);
      outer_entries target r2 params G' indices'
  end.

(** What the loops of [gradient] leave alone. *)
Definition frame_grad (self self' : ModelAndImageDifference) : Prop :=
  _data_image self' = _data_image self /\
  _scratch_image self' = _scratch_image self /\
  _last_gaussians self' = _last_gaussians self.

Lemma frame_grad_refl self : frame_grad self self.
Proof. repeat split. Qed.

Lemma frame_grad_trans s1 s2 s3 :
  frame_grad s1 s2 -> frame_grad s2 s3 -> frame_grad s1 s3.
Proof. intros (? & ? & ?) (? & ? & ?). repeat split; congruence. Qed.

Lemma gradient_inner_cons (g : Gaussian) (j k : nat) (nrs : list nat)
    (G : list num) (self : ModelAndImageDifference) :
  gradient_inner draw_gradient g j G (k :: nrs) self =
    match draw_gradient g (fill zero (_scratch_image_gradient self)) k with
    | inl e => (inl e, set_scratch_image_gradient (fill zero) self)
    | inr image =>
        gradient_inner draw_gradient g j
          (<[(j * 10 + k)%nat := asum (iop mul image (_scratch_image self))]> G) nrs
          (set_scratch_image_gradient
             (fun _ => iop mul image (_scratch_image self)) self)
    end.
Proof.
  simpl. unfold mbind_, mmodify, mget. simpl.
  destruct (draw_gradient g (fill zero (_scratch_image_gradient self)) k);
    reflexivity.
Qed.

Lemma gradient_outer_cons (params : list num) (j : nat) (indices : list nat)
    (G : list num) (self : ModelAndImageDifference) :
  gradient_outer draw_gradient params G (j :: indices) self =
    match Gaussian_of_args (slice (j * 10) (j * 10 + 10) params) with
    | inl e => (inl e, self)
    | inr g =>
        match gradient_inner draw_gradient g j G (seq 0 10) self with
        | (inl e, self') => (inl e, self')
        | (inr G', self') => gradient_outer draw_gradient params G' indices self'
        end
    end.
Proof.
  cbn [gradient_outer]. unfold mbind_ at 1, mlift.
  destruct (Gaussian_of_args _); [reflexivity|]. reflexivity.
Qed.

Lemma gradient_inner_frame (g : Gaussian) (j : nat) (nrs : list nat) :
  forall G self,
    frame_grad self (snd (gradient_inner draw_gradient g j G nrs self)).
Proof.
  induction nrs as [|k nrs IH]; intros G self.
  - apply frame_grad_refl.
  - rewrite gradient_inner_cons.
    destruct (draw_gradient g _ k) as [e|image].
    + repeat split.
    + eapply frame_grad_trans; [|apply IH]. repeat split.
Qed.

Lemma gradient_outer_frame (params : list num) (indices : list nat) :
  forall G self,
    frame_grad self (snd (gradient_outer draw_gradient params G indices self)).
Proof.
  induction indices as [|j indices IH]; intros G self.
  - apply frame_grad_refl.
  - rewrite gradient_outer_cons.
    destruct (Gaussian_of_args _) as [e|g]; [apply frame_grad_refl|].
    pose proof (gradient_inner_frame g j (seq 0 10) G self) as Hin.
    destruct (gradient_inner draw_gradient g j G (seq 0 10) self) as [[e|G'] self'];
      [exact Hin|].
    eapply frame_grad_trans; [exact Hin | apply IH].
Qed.

(** [gradient] keeps the invariant of the instance. *)
Lemma gradient_inv (target : ndarray) (params : list num)
    (self : ModelAndImageDifference) :
  inv target self -> inv target (snd (gradient uninit draw_gradient params self)).
Proof.
  intros Hinv. rewrite gradient_unfold.
  pose proof (_draw_gaussians_to_scratch_image_sim target params self Hinv) as Hsim.
  destruct (_draw_gaussians_to_scratch_image params self) as [[e|[]] self'];
    destruct (model_sum target params) as [e'|m]; try contradiction.
  - simpl. apply Hsim.
  - destruct Hsim as (Hm & (Hd & Hl & Hc) & Hf).
    pose proof (gradient_outer_frame params (seq 0 (length params / 10))
                  (replicate (length params) uninit)
                  (set_scratch_image (fun _ => doubled self') self')) as (F1 & F2 & F3).
    split; [rewrite F1; exact Hd|]. split; [|rewrite F3; exact Hc].
    rewrite F2. simpl. unfold doubled.
    eapply same_layout_trans; [apply same_layout_imap|].
    eapply same_layout_trans; [apply same_layout_iop; rewrite Hd; exact Hl|].
    exact Hl.
Qed.

Lemma reachable_inv (target : ndarray) (self : ModelAndImageDifference) :
  reachable uninit draw_gradient target self -> inv target self.
Proof.
  induction 1 as [|self params _ IH|self params _ IH].
  - split; [reflexivity|]. split; [apply same_layout_fill|apply coherent_nil].
  - apply difference_with_image_sim. exact IH.
  - apply gradient_inv. exact IH.
Qed.
End Gradient.

(** *** The objective *)

Lemma draw_same_shape (g : Gaussian) (image image' : ndarray) :
  ParticleDetection.draw g image = inr image' -> same_shape image image'.
Proof.
  rewrite draw_spec. destruct (render g image) as [e|r]; [discriminate|].
  intros Hadd. apply iadd_view_inr in Hadd. apply Hadd.
Qed.

Lemma window_ok_same_shape (g : Gaussian) (a b : ndarray) :
  same_shape a b -> window_ok g a -> window_ok g b.
Proof. intros (H0 & H1 & H2). unfold window_ok. rewrite H0, H1, H2. tauto. Qed.

(** A blob that [draw] accepts on images of the shape of [image]. *)
Definition drawable (image : ndarray) (g : Gaussian) : Prop :=
  window_ok g image /\ det3 (covariance_matrix g) <> zero.

Lemma render_sum_returns (params : list num) (starts : list nat) :
  forall image,
    (forall i, i ∈ starts ->
       exists g, Gaussian_of_args (slice i (i + 10) params) = inr g /\ drawable image g) ->
    returns (render_sum params image starts).
Proof.
  induction starts as [|i starts IH]; intros image Hall; simpl.
  - eexists. reflexivity.
  - destruct (Hall i) as (g & -> & Hok & Hdet); [left|]. simpl.
    destruct (draw_returns g image Hok Hdet) as [image' Himage'].
    rewrite Himage'. simpl. apply IH. intros i' Hi'.
    destruct (Hall i') as (g' & Hg' & Hok' & Hdet'); [right; exact Hi'|].
    exists g'. split; [exact Hg'|]. split; [|exact Hdet'].
    eapply window_ok_same_shape; [|exact Hok'].
    eapply draw_same_shape. exact Himage'.
Qed.

(** In a vector whose length is a multiple of ten every slice is
    complete. *)
Lemma slices_complete (params : list num) (i : nat) :
  (length params mod 10 = 0)%nat -> i ∈ range_step (length params) 10 ->
  returns (Gaussian_of_args (slice i (i + 10) params)).
Proof.
  intros Hmod Hi. apply Gaussian_of_args_length. rewrite length_slice.
  unfold range_step in Hi. apply list_elem_of_fmap in Hi.
  destruct Hi as (k & -> & Hk). apply elem_of_seq in Hk.
  pose proof (Nat.div_mod_eq (length params) 10).
  pose proof (Nat.div_mod_eq (length params + 10 - 1) 10).
  pose proof (Nat.mod_upper_bound (length params + 10 - 1) 10). lia.
Qed.

Lemma model_sum_returns (target : ndarray) (params : list num) :
  (length params mod 10 = 0)%nat ->
  (forall i g, i ∈ range_step (length params) 10 ->
     Gaussian_of_args (slice i (i + 10) params) = inr g -> drawable target g) ->
  returns (model_sum target params).
Proof.
  intros Hmod Hall. apply render_sum_returns. intros i Hi.
  destruct (slices_complete params i Hmod Hi) as [g Hg]. exists g.
  split; [exact Hg|]. destruct (Hall i g Hi Hg) as [Hok Hdet].
  split; [|exact Hdet].
  eapply window_ok_same_shape; [|exact Hok]. repeat split.
Qed.

Section Objective.
Variable uninit : num.
Variable draw_gradient : Gaussian -> ndarray -> nat -> Exc ndarray.

(** C1.  For every parameter vector whose length is a multiple of
    ten, in every state that an instance created for [target] can
    be in, [difference_with_image] computes the sum over all voxels
    of the squared difference between the model sum and the target:
    a zeroed buffer, every blob of the consecutive slices of ten
    parameters rendered additively into it, the target subtracted
    element-wise, every element squared, and the total.  It raises
    exactly when the rendering of a blob does, with that exception,
    and it returns a value when every blob has a non-inverted window
    and a non-singular covariance matrix. *)
Theorem difference_is_sum_of_squares (target : ndarray)
    (self : ModelAndImageDifference) (params : list num) :
  reachable uninit draw_gradient target self ->
  (length params mod 10 = 0)%nat ->
  fst (difference_with_image params self) =
    (m ← model_sum target params;
     ret (asum (imap (fun v => v * v) (iop sub m target)))) /\
  ((forall i g, i ∈ range_step (length params) 10 ->
      Gaussian_of_args (slice i (i + 10) params) = inr g -> drawable target g) ->
   returns (fst (difference_with_image params self))).
Proof.
  intros Hreach Hmod.
  destruct (difference_with_image_sim target params self
              (reachable_inv uninit draw_gradient target self Hreach)) as (Hval & _).
  assert (Heq : sum_of_squared_differences target params =
                (m ← model_sum target params;
                 ret (asum (imap (fun v => v * v) (iop sub m target))))).
  { unfold sum_of_squared_differences, residual.
    destruct (model_sum target params); reflexivity. }
  split; [rewrite Hval; exact Heq|].
  intros Hall. rewrite Hval, Heq.
  destruct (model_sum_returns target params Hmod Hall) as [m ->].
  eexists. reflexivity.
Qed.

(** C7.  In any two states that an instance created for [target] can
    be in after any histories of calls, [difference_with_image]
    gives one result for one parameter vector, value or exception:
    what the render cache holds never shows in the result. *)
Theorem difference_is_pure (target : ndarray)
    (self1 self2 : ModelAndImageDifference) (params : list num) :
  reachable uninit draw_gradient target self1 ->
  reachable uninit draw_gradient target self2 ->
  fst (difference_with_image params self1) = fst (difference_with_image params self2).
Proof.
  intros H1 H2.
  destruct (difference_with_image_sim target params self1
              (reachable_inv uninit draw_gradient target self1 H1)) as (-> & _).
  destruct (difference_with_image_sim target params self2
              (reachable_inv uninit draw_gradient target self2 H2)) as (-> & _).
  reflexivity.
Qed.
End Objective.

(** *** The gradient, without the buffers *)

Section GradientSim.
Variable uninit : num.
Variable draw_gradient : Gaussian -> ndarray -> nat -> Exc ndarray.
Hypothesis Hkeeps : keeps_layout draw_gradient.

Lemma gradient_inner_sim (target : ndarray) (g : Gaussian) (j : nat)
    (nrs : list nat) :
  forall G self,
    same_layout (_scratch_image_gradient self) target ->
    same_layout (_scratch_image self) target ->
    fst (gradient_inner draw_gradient g j G nrs self) =
      inner_entries draw_gradient target (_scratch_image self) g j G nrs /\
    same_layout
      (_scratch_image_gradient (snd (gradient_inner draw_gradient g j G nrs self)))
      target.
Proof.
  induction nrs as [|k nrs IH]; intros G self Hgrad Hscratch.
  - split; [reflexivity|exact Hgrad].
  - rewrite gradient_inner_cons. cbn [inner_entries].
    rewrite (fill_same_layout zero _ _ Hgrad).
    destruct (draw_gradient g (fill zero target) k) as [e|D] eqn:HD.
    + split; [reflexivity|]. simpl.
      eapply same_layout_trans; [apply same_layout_fill|exact Hgrad].
    + assert (HDl : same_layout D target).
      { eapply same_layout_trans;
          [apply same_layout_sym; eapply Hkeeps; exact HD | apply same_layout_fill]. }
      apply (IH _ (set_scratch_image_gradient
                     (fun _ => iop mul D (_scratch_image self)) self)).
      * simpl. eapply same_layout_trans; [|exact HDl].
        apply same_layout_iop.
        eapply same_layout_trans; [exact HDl|apply same_layout_sym; exact Hscratch].
      * exact Hscratch.
Qed.

Lemma gradient_outer_sim (target : ndarray) (params : list num)
    (indices : list nat) :
  forall G self,
    same_layout (_scratch_image_gradient self) target ->
    same_layout (_scratch_image self) target ->
    fst (gradient_outer draw_gradient params G indices self) =
      outer_entries draw_gradient target (_scratch_image self) params G indices /\
    same_layout
      (_scratch_image_gradient (snd (gradient_outer draw_gradient params G indices self)))
      target.
Proof.
  induction indices as [|j indices IH]; intros G self Hgrad Hscratch.
  - split; [reflexivity|exact Hgrad].
  - rewrite gradient_outer_cons. cbn [outer_entries].
    destruct (Gaussian_of_args _) as [e|g]; [split; [reflexivity|exact Hgrad]|].
    destruct (gradient_inner_sim target g j (seq 0 10) G self Hgrad Hscratch)
      as (Hval & Hlayout).
    pose proof (gradient_inner_frame draw_gradient g j (seq 0 10) G self)
      as (_ & Hsame & _).
    destruct (gradient_inner draw_gradient g j G (seq 0 10) self) as [[e|G'] self'];
      cbn [fst snd] in Hval, Hlayout, Hsame; rewrite bind_inr, <- Hval.
    + split; [reflexivity|exact Hlayout].
    + rewrite bind_inr, <- Hsame.
      apply IH; [exact Hlayout|]. rewrite Hsame. exact Hscratch.
Qed.

(** The buffer for the derivative images keeps its layout. *)
Definition inv_gradient (target : ndarray) (self : ModelAndImageDifference) : Prop :=
  same_layout (_scratch_image_gradient self) target.

Lemma gradient_sim (target : ndarray) (params : list num)
    (self : ModelAndImageDifference) :
  inv target self -> inv_gradient target self ->
  fst (gradient uninit draw_gradient params self) =
    match model_sum target params with
    | inl e => inl e
    | inr m =>
        outer_entries draw_gradient target
          (imap (fun v => v * of_Z 2) (iop sub m target)) params
          (replicate (length params) uninit) (seq 0 (length params / 10))
    end /\
  inv_gradient target (snd (gradient uninit draw_gradient params self)).
Proof.
  intros Hinv Hgrad. rewrite gradient_unfold.
  pose proof (_draw_gaussians_to_scratch_image_sim target params self Hinv) as Hsim.
  destruct (_draw_gaussians_to_scratch_image params self) as [[e|[]] self'];
    destruct (model_sum target params) as [e'|m]; try contradiction.
  - destruct Hsim as (-> & _ & (_ & Hg)). split; [reflexivity|].
    unfold inv_gradient. simpl. rewrite Hg. exact Hgrad.
  - destruct Hsim as (Hm & (Hd & Hl & Hc) & (_ & Hg)).
    assert (Hdoubled : doubled self' = imap (fun v => v * of_Z 2) (iop sub m target))
      by (unfold doubled; rewrite Hd, Hm; reflexivity).
    destruct (gradient_outer_sim target params (seq 0 (length params / 10))
                (replicate (length params) uninit)
                (set_scratch_image (fun _ => doubled self') self')) as (Hval & Hlayout).
    { simpl. rewrite Hg. exact Hgrad. }
    { simpl. unfold doubled.
      eapply same_layout_trans; [apply same_layout_imap|].
      eapply same_layout_trans; [apply same_layout_iop; rewrite Hd; exact Hl|].
      exact Hl. }
    change (_scratch_image (set_scratch_image (fun _ => doubled self') self'))
      with (doubled self') in Hval.
    rewrite <- Hdoubled. split; [exact Hval|exact Hlayout].
Qed.

Lemma reachable_inv_gradient (target : ndarray) (self : ModelAndImageDifference) :
  reachable uninit draw_gradient target self -> inv_gradient target self.
Proof.
  induction 1 as [|self params Hreach IH|self params Hreach IH].
  - apply same_layout_fill.
  - destruct (difference_with_image_sim target params self
                (reachable_inv uninit draw_gradient target self Hreach))
      as (_ & _ & (_ & Hg)).
    unfold inv_gradient. rewrite Hg. exact IH.
  - apply gradient_sim; [|exact IH].
    apply (reachable_inv uninit draw_gradient). exact Hreach.
Qed.
End GradientSim.

(** *** The entries of the gradient vector *)

Section Entries.
Variable draw_gradient : Gaussian -> ndarray -> nat -> Exc ndarray.
Variables target r2 : ndarray.

Lemma inner_entries_spec (g : Gaussian) (j : nat) (nrs : list nat) :
  forall G G',
    inner_entries draw_gradient target r2 g j G nrs = inr G' ->
    length G' = length G /\
    (forall idx, (forall k, k ∈ nrs -> idx <> (j * 10 + k)%nat) ->
                 G' !! idx = G !! idx) /\
    (NoDup nrs ->
     forall k, k ∈ nrs -> (j * 10 + k < length G)%nat ->
       exists D, draw_gradient g (fill zero target) k = inr D /\
                 G' !! (j * 10 + k)%nat = Some (asum (iop mul D r2))).
Proof.
  induction nrs as [|k nrs IH]; intros G G'; cbn [inner_entries].
  - intros [= <-]. split; [reflexivity|]. split; [reflexivity|].
    intros _ k Hk. inversion Hk.
  - destruct (draw_gradient g (fill zero target) k) as [e|D] eqn:HD;
      [discriminate|].
    rewrite bind_inr. intros HG'.
    destruct (IH _ _ HG') as (Hlen & Hother & Hset).
    rewrite length_insert in Hlen. split; [exact Hlen|]. split.
    + intros idx Hidx. rewrite Hother.
      * apply list_lookup_insert_ne. intros Heq. apply (Hidx k); [left|].
        symmetry. exact Heq.
      * intros k' Hk'. apply Hidx. right. exact Hk'.
    + intros Hnd k' Hk' Hbound. apply NoDup_cons in Hnd. destruct Hnd as [Hnotin Hnd].
      apply elem_of_cons in Hk'. destruct Hk' as [->|Hk'].
      * exists D. split; [exact HD|]. rewrite Hother.
        -- apply list_lookup_insert_eq. exact Hbound.
        -- intros k' Hk' Heq. apply Hnotin.
           replace k with k' by lia. exact Hk'.
      * apply (Hset Hnd k' Hk'). rewrite length_insert. exact Hbound.
Qed.

Lemma outer_entries_spec (params : list num) (indices : list nat) :
  forall G G',
    outer_entries draw_gradient target r2 params G indices = inr G' ->
    length G' = length G /\
    (forall idx,
       (forall j k, j ∈ indices -> (k < 10)%nat -> idx <> (j * 10 + k)%nat) ->
       G' !! idx = G !! idx) /\
    (NoDup indices ->
     forall j k, j ∈ indices -> (k < 10)%nat -> (j * 10 + k < length G)%nat ->
       exists g D,
         Gaussian_of_args (slice (j * 10) (j * 10 + 10) params) = inr g /\
         draw_gradient g (fill zero target) k = inr D /\
         G' !! (j * 10 + k)%nat = Some (asum (iop mul D r2))).
Proof.
  induction indices as [|j indices IH]; intros G G'; cbn [outer_entries].
  - intros [= <-]. split; [reflexivity|]. split; [reflexivity|].
    intros _ j k Hj. inversion Hj.
  - destruct (Gaussian_of_args (slice (j * 10) (j * 10 + 10) params)) as [e|g] eqn:Hg;
      [discriminate|].
    rewrite bind_inr.
    destruct (inner_entries draw_gradient target r2 g j G (seq 0 10)) as [e|G1] eqn:HG1;
      [discriminate|].
    rewrite bind_inr. intros HG'.
    destruct (inner_entries_spec g j (seq 0 10) G G1 HG1) as (Hlen1 & Hother1 & Hset1).
    destruct (IH _ _ HG') as (Hlen & Hother & Hset).
    split; [congruence|]. split.
    + intros idx Hidx. rewrite Hother.
      * apply Hother1. intros k Hk. apply elem_of_seq in Hk.
        apply Hidx; [left|lia].
      * intros j' k Hj' Hk. apply Hidx; [right; exact Hj'|exact Hk].
    + intros Hnd j' k Hj' Hk Hbound. apply NoDup_cons in Hnd.
      destruct Hnd as [Hnotin Hnd].
      apply elem_of_cons in Hj'. destruct Hj' as [->|Hj'].
      * destruct (Hset1 (NoDup_seq 0 10) k) as (D & HD & HG1k).
        { apply elem_of_seq. lia. }
        { exact Hbound. }
        exists g, D. split; [exact Hg|]. split; [exact HD|].
        rewrite Hother; [exact HG1k|].
        intros j' k' Hj' Hk' Heq. apply Hnotin.
        replace j with j' by lia. exact Hj'.
      * apply (Hset Hnd j' k Hj' Hk). rewrite Hlen1. exact Hbound.
Qed.

Lemma inner_entries_returns (g : Gaussian) (j : nat) (nrs : list nat) :
  (forall k, k ∈ nrs -> returns (draw_gradient g (fill zero target) k)) ->
  forall G, returns (inner_entries draw_gradient target r2 g j G nrs).
Proof.
  induction nrs as [|k nrs IH]; intros Hall G; cbn [inner_entries].
  - eexists. reflexivity.
  - destruct (Hall k) as [D ->]; [left|]. rewrite bind_inr.
    apply IH. intros k' Hk'. apply Hall. right. exact Hk'.
Qed.

Lemma outer_entries_returns (params : list num) (indices : list nat) :
  (forall j, j ∈ indices ->
     exists g, Gaussian_of_args (slice (j * 10) (j * 10 + 10) params) = inr g /\
               forall k, (k < 10)%nat ->
                         returns (draw_gradient g (fill zero target) k)) ->
  forall G, returns (outer_entries draw_gradient target r2 params G indices).
Proof.
  induction indices as [|j indices IH]; intros Hall G; cbn [outer_entries].
  - eexists. reflexivity.
  - destruct (Hall j) as (g & -> & Hg); [left|]. rewrite bind_inr.
    destruct (inner_entries_returns g j (seq 0 10)) with (G := G) as [G1 ->].
    { intros k Hk. apply elem_of_seq in Hk. apply Hg. lia. }
    rewrite bind_inr. apply IH. intros j' Hj'. apply Hall. right. exact Hj'.
Qed.
End Entries.
End ModelFacts.

(** ** The gradient in exact arithmetic *)

Section GradientFacts.
Import ParticleDetection Autotrack.
Context {S : Scalar} {L : ScalarLaws S}.
Local Open Scope num_scope.

Add Ring num_ring_grad : num_ring.

Lemma zip_with_map_swap {A B C D} (f : A -> B -> C) (f' : D -> A -> C)
    (h : D -> B) (h' : C -> C) (l : list A) (g : list D) :
  (forall x y, f x (h y) = h' (f' y x)) ->
  zip_with f l (map h g) = map h' (zip_with f' g l).
Proof.
  intros Hf. revert g. induction l as [|x l IH]; intros [|y g]; simpl; try reflexivity.
  rewrite Hf, IH. reflexivity.
Qed.

Lemma ravel_map3 (h : num -> num) (v : list (list (list num))) :
  concat (concat (map3 h v)) = map h (concat (concat v)).
Proof. unfold map3. rewrite <- concat_map, <- concat_map. reflexivity. Qed.

Lemma fold_left_add_scale (c : num) (l : list num) (acc : num) :
  fold_left add (map (fun v => c * v) l) (c * acc) = c * fold_left add l acc.
Proof.
  revert acc. induction l as [|v l IH]; intros acc; simpl; [reflexivity|].
  rewrite <- IH. f_equal. ring.
Qed.

Lemma total_scale (c : num) (l : list num) :
  total (map (fun v => c * v) l) = c * total l.
Proof.
  unfold total. rewrite <- fold_left_add_scale. f_equal. ring.
Qed.

(** The sum that [gradient] takes, of the derivative image times the
    doubled residual, is twice the dot product of the residual with the
    derivative image. *)
Lemma doubled_dot (D r : ndarray) :
  asum (iop mul D (imap (fun v => v * of_Z 2) r)) = of_Z 2 * dot r D.
Proof.
  unfold dot, asum, ravel, iop, imap. simpl.
  rewrite <- total_scale, <- ravel_map3. do 3 f_equal.
  unfold zip3, map3.
  apply zip_with_map_swap. intros P Q.
  apply zip_with_map_swap. intros R T.
  apply zip_with_map_swap. intros d v. ring.
Qed.

Section Claim.
Variable uninit : num.
Variable draw_gradient : Gaussian -> ndarray -> nat -> Exc ndarray.

(** C2.  For every parameter vector of length [10 n], in every state
    that an instance created for [target] can be in, and for a
    [draw_gradient] that keeps the shape of the buffer it draws
    into: a vector that [gradient] returns has length [10 n], and
    its entry for parameter [k] of blob [j], at index [10 j + k], is
    twice the element-wise dot product of the residual image
    [r = model_sum - target] with the derivative image that
    [draw_gradient] renders into a zeroed buffer for parameter [k]
    of the blob of slice [j]; that [r] is the residual whose squares
    [difference_with_image] sums, in every state, for the same
    vector.  [gradient] returns when the residual can be rendered and
    every derivative image can. *)
Theorem gradient_is_twice_residual_dot_derivative (target : ndarray)
    (self : ModelAndImageDifference) (params : list num) (n : nat) :
  keeps_layout draw_gradient ->
  reachable uninit draw_gradient target self ->
  length params = (10 * n)%nat ->
  (forall G,
     fst (gradient uninit draw_gradient params self) = inr G ->
     length G = (10 * n)%nat /\
     exists r,
       residual target params = inr r /\
       (forall self2,
          reachable uninit draw_gradient target self2 ->
          fst (difference_with_image params self2) =
            inr (asum (imap (fun v => v * v) r))) /\
       forall j k, (j < n)%nat -> (k < 10)%nat ->
         exists g D,
           Gaussian_of_args (slice (j * 10) (j * 10 + 10) params) = inr g /\
           draw_gradient g (fill zero target) k = inr D /\
           G !! (j * 10 + k)%nat = Some (of_Z 2 * dot r D)) /\
  (returns (residual target params) ->
   (forall j k g, (j < n)%nat -> (k < 10)%nat ->
      Gaussian_of_args (slice (j * 10) (j * 10 + 10) params) = inr g ->
      returns (draw_gradient g (fill zero target) k)) ->
   returns (fst (gradient uninit draw_gradient params self))).
Proof.
  intros Hkeeps Hreach Hlen.
  pose proof (reachable_inv uninit draw_gradient target self Hreach) as Hinv.
  pose proof (reachable_inv_gradient uninit draw_gradient Hkeeps target self Hreach)
    as Hinvg.
  destruct (gradient_sim uninit draw_gradient Hkeeps target params self Hinv Hinvg)
    as (Hval & _).
  assert (Hdiv : (length params / 10 = n)%nat).
  { rewrite Hlen, Nat.mul_comm. apply Nat.div_mul. lia. }
  rewrite Hdiv in Hval. rewrite Hval. clear Hval. split.
  - intros G HG.
    destruct (model_sum target params) as [e|m] eqn:Hm; [discriminate|].
    destruct (outer_entries_spec draw_gradient target _ params (seq 0 n) _ _ HG)
      as (HlenG & _ & Hset).
    rewrite length_replicate in HlenG. split; [congruence|].
    exists (iop sub m target). split.
    { unfold residual. rewrite Hm. reflexivity. }
    split.
    { intros self2 Hreach2.
      destruct (difference_with_image_sim target params self2
                  (reachable_inv uninit draw_gradient target self2 Hreach2)) as (-> & _).
      unfold sum_of_squared_differences, residual. rewrite Hm. reflexivity. }
    intros j k Hj Hk.
    destruct (Hset (NoDup_seq 0 n) j k) as (g & D & Hg & HD & HGjk).
    { apply elem_of_seq. lia. }
    { exact Hk. }
    { rewrite length_replicate. lia. }
    exists g, D. split; [exact Hg|]. split; [exact HD|].
    rewrite HGjk, doubled_dot. reflexivity.
  - intros [r Hr] Hall. unfold residual in Hr.
    destruct (model_sum target params) as [e|m]; [discriminate|].
    apply outer_entries_returns. intros j Hj. apply elem_of_seq in Hj.
    destruct (proj2 (Gaussian_of_args_length
                       (slice (j * 10) (j * 10 + 10) params))) as [g Hg].
    { rewrite length_slice. lia. }
    exists g. split; [exact Hg|]. intros k Hk. apply (Hall j k g); [lia|exact Hk|exact Hg].
Qed.
End Claim.
End GradientFacts.

(** ** The fit of a whole image *)


Lemma obind_ext {A B} (m : Out A) (f g : A -> Out B) :
  (forall v, f v = g v) -> obind m f = obind m g.
Proof. intros H. destruct m as [l [e|v]]; simpl; [reflexivity|]. rewrite H. reflexivity. Qed.


Lemma elem_of_concat {A} (x : A) (ls : list (list A)) :
  x ∈ concat ls <-> exists l, l ∈ ls /\ x ∈ l.
Proof.
  rewrite list_elem_of_In, in_concat. split.
  - intros (l & Hl & Hx). exists l. rewrite !list_elem_of_In. auto.
  - intros (l & Hl & Hx). exists l. apply list_elem_of_In in Hl, Hx. auto.
Qed.

Lemma slot_lt (n : nat) (t : Z) (p : nat) : slot n t = Some p -> (p < n)%nat.
Proof.
  unfold slot.
  destruct (Z.leb_spec 0 t); destruct (Z.ltb_spec t (Z.of_nat n)); simpl;
    try (intros [= <-]; lia);
    destruct (Z.leb_spec (- Z.of_nat n) t); destruct (Z.ltb_spec t 0); simpl;
    try discriminate; intros [= <-]; lia.
Qed.

Lemma slot_in_range (n : nat) (t : Z) :
  (0 <= t < Z.of_nat n)%Z -> slot n t = Some (Z.to_nat t).
Proof.
  intros Ht. unfold slot.
  rewrite (proj2 (Z.leb_le 0 t)), (proj2 (Z.ltb_lt t (Z.of_nat n))) by lia. reflexivity.
Qed.

Section StoreFacts.
Import ParticleDetection Autotrack.
Context {S : Scalar}.

Lemma list_setitem_slot {A} (l : list A) (t : Z) (v : A) :
  list_setitem l t v =
    match slot (length l) t with
    | Some p => inr (<[p := v]> l)
    | None => inl (IndexError "list assignment index out of range")
    end.
Proof.
  unfold list_setitem, slot.
  destruct ((0 <=? t)%Z && (t <? Z.of_nat (length l))%Z); [reflexivity|].
  destruct ((- Z.of_nat (length l) <=? t)%Z && (t <? 0)%Z); reflexivity.
Qed.

(** The slots that the tags of a cluster denote. *)
Definition slots (n : nat) (tags : list Z) : list nat := omap (slot n) tags.

Lemma agree_outside_refl {A} (T : list nat) (l : list A) : agree_outside T l l.
Proof. split; reflexivity. Qed.

Lemma agree_outside_trans {A} (T : list nat) (l1 l2 l3 : list A) :
  agree_outside T l1 l2 -> agree_outside T l2 l3 -> agree_outside T l1 l3.
Proof.
  intros [H1 H2] [H3 H4]. split; [congruence|].
  intros p Hp. rewrite H2, H4 by exact Hp. reflexivity.
Qed.

Lemma agree_outside_sym {A} (T : list nat) (l1 l2 : list A) :
  agree_outside T l1 l2 -> agree_outside T l2 l1.
Proof. intros [H1 H2]. split; [congruence|]. intros p Hp. symmetry. apply H2, Hp. Qed.

Lemma agree_outside_insert_in {A} (T : list nat) (l : list A) (p : nat) (v : A) :
  p ∈ T -> agree_outside T l (<[p := v]> l).
Proof.
  intros Hp. split; [rewrite length_insert; reflexivity|].
  intros q Hq. symmetry. apply list_lookup_insert_ne. intros ->. contradiction.
Qed.


(** The loop that stores the blobs of a cluster writes to the slots of
    its tags only, and an exception it raises is an [IndexError]. *)
Lemma store_gaussians_writes (tags : list Z) (ox oy oz : Z) (gs : list Gaussian) :
  forall i all r all',
    store_gaussians tags ox oy oz i gs all = (r, all') ->
    agree_outside (slots (length all) tags) all all' /\
    (r = inr tt \/ exists m, r = inl (IndexError m)).
Proof.
  induction gs as [|g gs IH]; intros i all r all'; simpl.
  - intros [= <- <-]. split; [apply agree_outside_refl|left; reflexivity].
  - unfold list_getitem. destruct (tags !! i) as [t|] eqn:Ht; simpl.
    2:{ intros [= <- <-]. split; [apply agree_outside_refl|right; eexists; reflexivity]. }
    rewrite list_setitem_slot. destruct (slot (length all) t) as [p|] eqn:Hp.
    2:{ intros [= <- <-]. split; [apply agree_outside_refl|right; eexists; reflexivity]. }
    intros Hrest. destruct (IH _ _ _ _ Hrest) as (Hagree & Hr).
    rewrite length_insert in Hagree. split; [|exact Hr].
    eapply agree_outside_trans; [|exact Hagree].
    apply agree_outside_insert_in. unfold slots. apply list_elem_of_omap.
    exists t. split; [|exact Hp]. eapply list_elem_of_lookup_2. exact Ht.
Qed.


(** With distinct tags that are indices of the list, and no more blobs
    than tags, the loop stores every blob at its tag, translated by the
    offset, and touches no other slot. *)
Lemma store_gaussians_spec (tags : list Z) (ox oy oz : Z) (gs : list Gaussian) :
  forall i all,
    NoDup tags ->
    (forall t, t ∈ tags -> (0 <= t < Z.of_nat (length all))%Z) ->
    (i + length gs <= length tags)%nat ->
    exists all',
      store_gaussians tags ox oy oz i gs all = (inr tt, all') /\
      length all' = length all /\
      (forall k g t,
         gs !! k = Some g -> tags !! (i + k)%nat = Some t ->
         all' !! Z.to_nat t =
           Some (Some (translated g (of_Z ox) (of_Z oy) (of_Z oz)))) /\
      (forall p,
         (forall k t, (k < length gs)%nat -> tags !! (i + k)%nat = Some t ->
                      p <> Z.to_nat t) ->
         all' !! p = all !! p).
Proof.
  induction gs as [|g gs IH]; intros i all Hnd Hrange Hlen.
  - exists all. split; [reflexivity|]. split; [reflexivity|].
    split; [intros k g t Hk; discriminate|reflexivity].
  - cbn [store_gaussians]. simpl in Hlen.
    destruct (lookup_lt_is_Some_2 tags i) as [t Ht]; [lia|].
    unfold list_getitem. rewrite Ht. simpl.
    assert (Htr : (0 <= t < Z.of_nat (length all))%Z).
    { apply Hrange. eapply list_elem_of_lookup_2. exact Ht. }
    rewrite list_setitem_slot, slot_in_range by exact Htr.
    destruct (IH (Datatypes.S i)
                (<[Z.to_nat t := Some (translated g (of_Z ox) (of_Z oy) (of_Z oz))]> all))
      as (all' & Hstore & Hlen' & Hset & Hframe).
    { exact Hnd. }
    { intros t' Ht'. rewrite length_insert. apply Hrange. exact Ht'. }
    { lia. }
    exists all'. split; [exact Hstore|]. rewrite length_insert in Hlen'.
    split; [exact Hlen'|]. split.
    + intros [|k] g' t' Hg' Ht'.
      * rewrite Nat.add_0_r, Ht in Ht'. injection Ht' as <-.
        simpl in Hg'. injection Hg' as <-.
        rewrite Hframe.
        -- apply list_lookup_insert_eq. lia.
        -- intros k t' Hk Ht' Heq.
           assert (Ht'r : (0 <= t')%Z).
           { apply Hrange. eapply list_elem_of_lookup_2. exact Ht'. }
           assert (t = t') by lia. subst t'.
           pose proof (NoDup_lookup _ _ _ _ Hnd Ht Ht'). lia.
      * simpl in Hg'. apply (Hset k g' t' Hg').
        rewrite <- Ht'. f_equal. lia.
    + intros p Hp. rewrite Hframe.
      * apply list_lookup_insert_ne. intros Heq. apply (Hp 0%nat t); [simpl; lia| |].
        -- rewrite Nat.add_0_r. exact Ht.
        -- symmetry. exact Heq.
      * intros k t' Hk Ht'. apply (Hp (Datatypes.S k) t'); [simpl; lia|].
        rewrite <- Ht'. f_equal. lia.
Qed.

(** What a fit that returns says about the minimizer. *)
Lemma perform_gaussian_mixture_fit_inr (uninit : num)
    (minimize : forall St : Type, (list num -> St -> Exc num * St) -> St -> list num ->
                                  Exc OptimizeResult)
    (image : ndarray) (guesses gs : list Gaussian) :
  perform_gaussian_mixture_fit uninit minimize image guesses = inr gs <->
  exists result,
    minimize _ difference_with_image (__init__ uninit image)
      (concat (map to_list guesses)) = inr result /\
    success result = true /\
    gaussians_of_params (x result) = inr gs.
Proof.
  unfold perform_gaussian_mixture_fit. split.
  - destruct (minimize _ _ _ _) as [e|result]; [discriminate|]. rewrite bind_inr.
    destruct (success result) eqn:Hs; [|discriminate]. simpl.
    intros Hgs. exists result. auto.
  - intros (result & -> & Hs & Hgs). rewrite bind_inr, Hs. exact Hgs.
Qed.

(** What a fit that raises a [ValueError] of its own says. *)
Lemma perform_gaussian_mixture_fit_failure (uninit : num)
    (minimize : forall St : Type, (list num -> St -> Exc num * St) -> St -> list num ->
                                  Exc OptimizeResult)
    (image : ndarray) (guesses : list Gaussian) (result : OptimizeResult) :
  minimize _ difference_with_image (__init__ uninit image)
    (concat (map to_list guesses)) = inr result ->
  success result = false ->
  perform_gaussian_mixture_fit uninit minimize image guesses =
    inl (ValueError ("Minimization failed: " +:+ message result)).
Proof.
  intros Hmin Hs. unfold perform_gaussian_mixture_fit.
  rewrite Hmin, bind_inr, Hs. reflexivity.
Qed.

(** The blobs of a parameter vector, slice by slice. *)
Lemma gaussians_of_params_lookup (params : list num) (gs : list Gaussian) :
  gaussians_of_params params = inr gs ->
  length gs = Nat.div (length params + 10 - 1) 10 /\
  forall i g, gs !! i = Some g ->
              Gaussian_of_args (slice (i * 10) (i * 10 + 10) params) = inr g.
Proof.
  unfold gaussians_of_params. intros Hgs. apply emapM_inr in Hgs.
  split.
  - rewrite <- (Forall2_length _ _ _ Hgs). apply length_range_step.
  - intros i g Hg.
    destruct (Forall2_lookup_r _ _ _ _ _ Hgs Hg) as (start & Hstart & Hval).
    assert (Hi : (i < Nat.div (length params + 10 - 1) 10)%nat).
    { rewrite <- (length_range_step (length params) 10).
      eapply lookup_lt_Some. exact Hstart. }
    rewrite (range_step_lookup _ _ _ Hi) in Hstart. injection Hstart as <-.
    exact Hval.
Qed.
End StoreFacts.

Section OrchestratorFacts.
Import ParticleDetection Autotrack.
Context {S : Scalar}.
Variable uninit : num.
Variable Cluster : Type.
Variable get_image_for_fit : Cluster -> ndarray -> Z -> Z * Z * Z * option ndarray.
Variable guess_gaussians : Cluster -> ndarray -> list Gaussian.
Variable get_tags : Cluster -> list Z.
Variable cluster_str : Cluster -> string.
Variable smooth : ndarray -> Z -> ndarray.

Local Abbreviation minimizer :=
  (forall St : Type, (list num -> St -> Exc num * St) -> St -> list num ->
                     Exc OptimizeResult).
Local Abbreviation step m :=
  (fit_cluster uninit m Cluster get_image_for_fit guess_gaussians get_tags
     cluster_str smooth).
Local Abbreviation steps m :=
  (fit_clusters uninit m Cluster get_image_for_fit guess_gaussians get_tags
     cluster_str smooth).
Local Abbreviation out m :=
  (outcome uninit m Cluster get_image_for_fit guess_gaussians smooth).
Local Abbreviation origin := (crop_origin Cluster get_image_for_fit).

(** The line that reports a failed cluster. *)
Definition failure_line (cluster : Cluster) : string :=
  "Minimization failed for " +:+ cluster_str cluster.

(** One iteration of the loop, by the outcome of the cluster. *)
Lemma fit_cluster_outcome (minimize : minimizer) (image : ndarray) (blur_radius : Z)
    (cluster : Cluster) (all_gaussians : list (option Gaussian)) :
  step minimize image blur_radius cluster all_gaussians =
    match out minimize image blur_radius cluster with
    | Skipped => ([], inr all_gaussians)
    | Failed _ => ([failure_line cluster], inr all_gaussians)
    | Aborted e => ([], inl e)
    | Fitted gaussians =>
        let '(offset_x, offset_y, offset_z) := origin image blur_radius cluster in
        match store_gaussians (get_tags cluster) offset_x offset_y offset_z 0
                gaussians all_gaussians with
        | (inr _, all_gaussians) => ([], inr all_gaussians)
        | (inl (ValueError _), all_gaussians) =>
            ([failure_line cluster], inr all_gaussians)
        | (inl e, _) => ([], inl e)
        end
    end.
Proof.
  unfold fit_cluster, outcome, crop_origin, local_guesses, try_body.
  destruct (get_image_for_fit cluster image blur_radius) as [[[ox oy] oz] [cropped|]];
    [|reflexivity].
  destruct (perform_gaussian_mixture_fit uninit minimize _ _) as [[]|gs];
    reflexivity.
Qed.




(** A blob of the crop of a cluster, in the coordinates of the image. *)
Definition globalised (image : ndarray) (blur_radius : Z) (cluster : Cluster)
    (g : Gaussian) : Gaussian :=
  let '(offset_x, offset_y, offset_z) := origin image blur_radius cluster in
  translated g (of_Z offset_x) (of_Z offset_y) (of_Z offset_z).

(** No cluster ends the run, and a fit returns one blob per tag. *)
Definition well_behaved (minimize : minimizer) (image : ndarray) (blur_radius : Z)
    (clusters : list Cluster) : Prop :=
  forall c, c ∈ clusters ->
    match out minimize image blur_radius c with
    | Aborted _ => False
    | Fitted gs => length gs = length (get_tags c)
    | _ => True
    end.

Lemma fit_clusters_spec (minimize : minimizer) (image : ndarray) (blur_radius : Z)
    (clusters : list Cluster) :
  forall all_gaussians,
    NoDup (concat (map get_tags clusters)) ->
    (forall c t, c ∈ clusters -> t ∈ get_tags c ->
                 (0 <= t < Z.of_nat (length all_gaussians))%Z) ->
    well_behaved minimize image blur_radius clusters ->
    exists lines all',
      steps minimize image blur_radius clusters all_gaussians = (lines, inr all') /\
      length all' = length all_gaussians /\
      (forall c gs i g t,
         c ∈ clusters -> out minimize image blur_radius c = Fitted gs ->
         gs !! i = Some g -> get_tags c !! i = Some t ->
         all' !! Z.to_nat t = Some (Some (globalised image blur_radius c g))) /\
      (forall p,
         (forall c gs t, c ∈ clusters -> out minimize image blur_radius c = Fitted gs ->
                         t ∈ get_tags c -> p <> Z.to_nat t) ->
         all' !! p = all_gaussians !! p).
Proof.
  induction clusters as [|c cs IH]; intros all Hnd Hrange Hwb.
  - exists [], all. split; [reflexivity|]. split; [reflexivity|].
    split; [intros c gs i g t Hc; inversion Hc|reflexivity].
  - cbn [map concat] in Hnd. apply NoDup_app in Hnd.
    destruct Hnd as (Hndc & Hdisj & Hndcs).
    assert (Hwbcs : well_behaved minimize image blur_radius cs).
    { intros c' Hc'. apply Hwb. right. exact Hc'. }
    assert (Hstep : exists l all1,
               step minimize image blur_radius c all = (l, inr all1) /\
               length all1 = length all /\
               (forall gs i g t,
                  out minimize image blur_radius c = Fitted gs ->
                  gs !! i = Some g -> get_tags c !! i = Some t ->
                  all1 !! Z.to_nat t = Some (Some (globalised image blur_radius c g))) /\
               (forall p,
                  (forall gs t, out minimize image blur_radius c = Fitted gs ->
                                t ∈ get_tags c -> p <> Z.to_nat t) ->
                  all1 !! p = all !! p)).
    { rewrite fit_cluster_outcome. unfold globalised.
      pose proof (Hwb c (list_elem_of_here _ _)) as Hc.
      destruct (out minimize image blur_radius c) as [|msg|gs|e] eqn:Hout.
      - exists [], all. split; [reflexivity|]. split; [reflexivity|].
        split; [intros gs i g t Hgs; discriminate|reflexivity].
      - exists [failure_line c], all. split; [reflexivity|]. split; [reflexivity|].
        split; [intros gs i g t Hgs; discriminate|reflexivity].
      - destruct (origin image blur_radius c) as [[ox oy] oz].
        destruct (store_gaussians_spec (get_tags c) ox oy oz gs 0 all Hndc)
          as (all1 & Hstore & Hlen1 & Hset & Hframe).
        { intros t Ht. apply (Hrange c t); [left|exact Ht]. }
        { lia. }
        exists [], all1. rewrite Hstore. split; [reflexivity|]. split; [exact Hlen1|].
        split.
        + intros gs' i g t [= <-] Hg Ht. apply (Hset i g t Hg Ht).
        + intros p Hp. apply Hframe. intros k t Hk Ht.
          apply (Hp gs t eq_refl). eapply list_elem_of_lookup_2. exact Ht.
      - contradiction. }
    destruct Hstep as (l & all1 & Hstep & Hlen1 & Hset1 & Hframe1).
    destruct (IH all1 Hndcs) as (lines & all' & Hsteps & Hlen' & Hset & Hframe).
    { intros c' t Hc' Ht. rewrite Hlen1. apply (Hrange c' t); [right; exact Hc'|exact Ht]. }
    { exact Hwbcs. }
    exists (l ++ lines), all'. split.
    { cbn [fit_clusters]. rewrite Hstep. simpl. rewrite Hsteps. reflexivity. }
    split; [congruence|]. split.
    + intros c' gs i g t Hc' Hout Hg Ht. apply elem_of_cons in Hc'.
      destruct Hc' as [->|Hc']; [|apply (Hset c' gs i g t Hc' Hout Hg Ht)].
      rewrite Hframe; [apply (Hset1 gs i g t Hout Hg Ht)|].
      intros c' gs' t' Hc' Hout' Ht' Heq.
      assert (Hin : t ∈ get_tags c) by (eapply list_elem_of_lookup_2; exact Ht).
      assert (t = t').
      { pose proof (Hrange c t (list_elem_of_here _ _) Hin).
        pose proof (Hrange c' t' (list_elem_of_further _ _ _ Hc') Ht'). lia. }
      subst t'. apply (Hdisj t Hin). apply elem_of_concat.
      exists (get_tags c'). split; [|exact Ht']. apply list_elem_of_In, in_map.
      apply list_elem_of_In. exact Hc'.
    + intros p Hp. rewrite Hframe.
      * apply Hframe1. intros gs t Hout Ht. apply (Hp c gs t); [left|exact Hout|exact Ht].
      * intros c' gs t Hc' Hout Ht. apply (Hp c' gs t); [right; exact Hc'|exact Hout|exact Ht].
Qed.

(** *** Containment of a failing cluster *)





Section Run.
Variable EllipseStacks : Type.
Variable stacks_len : EllipseStacks -> nat.
Variable get_ellipse_stacks_from_watershed : ndarray -> EllipseStacks.
Variable start_time end_time : num.
Variable float_str : num -> string.

Local Abbreviation run m fos :=
  (perform_gaussian_mixture_fit_from_watershed uninit m EllipseStacks Cluster
     stacks_len get_ellipse_stacks_from_watershed fos get_image_for_fit
     guess_gaussians get_tags cluster_str smooth start_time end_time float_str).



Lemma emapM_inl {A B} (f : A -> Exc B) (l : list A) (e : exn) :
  emapM f l = inl e -> exists v, v ∈ l /\ f v = inl e.
Proof.
  induction l as [|v l IH]; simpl; [discriminate|].
  destruct (f v) as [e'|y] eqn:Hv.
  - intros [= <-]. exists v. split; [left|exact Hv].
  - destruct (emapM f l) as [e'|ys]; [|discriminate].
    intros [= <-]. destruct (IH eq_refl) as (w & Hw & Hfw).
    exists w. split; [right; exact Hw|exact Hfw].
Qed.

(** The only exception of [gaussians_of_params] is the [TypeError] of
    the constructor. *)
Lemma gaussians_of_params_inl (params : list num) (e : exn) :
  gaussians_of_params params = inl e -> exists msg, e = TypeError msg.
Proof.
  intros He. apply emapM_inl in He. destruct He as (i & _ & Hi).
  revert Hi. generalize (slice i (i + 10) params). intros args.
  unfold Gaussian_of_args.
  do 11 (destruct args as [|? args];
         [first [discriminate | intros [= <-]; eexists; reflexivity]|]).
  intros [= <-]. eexists. reflexivity.
Qed.

Lemma outcome_with_crop (minimize : minimizer) (image : ndarray) (blur_radius : Z)
    (c : Cluster) (ox oy oz : Z) (cropped : ndarray) :
  get_image_for_fit c image blur_radius = (ox, oy, oz, Some cropped) ->
  out minimize image blur_radius c =
    match perform_gaussian_mixture_fit uninit minimize (smooth cropped blur_radius)
            (local_guesses Cluster get_image_for_fit guess_gaussians image blur_radius c)
    with
    | inr gaussians => Fitted gaussians
    | inl (ValueError msg) => Failed msg
    | inl e => Aborted e
    end /\
  origin image blur_radius c = (ox, oy, oz).
Proof.
  intros Hcrop. unfold outcome, crop_origin. rewrite Hcrop. split; reflexivity.
Qed.

(** C4.  When the tags of the clusters are distinct indices of the seed
    list, no cluster ends the run with an exception other than a
    [ValueError], and every fit that returns gives one blob per tag of
    its cluster: the run returns a list with one slot per seed; for every
    cluster whose crop is present and whose minimizer reports success
    with the vector [x], the slot of the [i]-th tag of the cluster holds
    the blob of the [i]-th slice of ten parameters of [x], translated by
    the origin of the crop; and every slot that is no tag of a cluster
    whose fit returned is empty. *)
Theorem fit_result_is_aligned_with_tags (minimize : minimizer)
    (find_overlapping_stacks : EllipseStacks -> list Cluster)
    (image watershed_image : ndarray) (blur_radius : Z) :
  let stacks := get_ellipse_stacks_from_watershed watershed_image in
  let clusters := find_overlapping_stacks stacks in
  NoDup (concat (map get_tags clusters)) ->
  (forall c t, c ∈ clusters -> t ∈ get_tags c ->
               (0 <= t < Z.of_nat (stacks_len stacks))%Z) ->
  well_behaved minimize image blur_radius clusters ->
  exists lines all_gaussians,
    run minimize find_overlapping_stacks image watershed_image blur_radius
      = (lines, inr all_gaussians) /\
    length all_gaussians = stacks_len stacks /\
    (forall c cropped ox oy oz result i t,
       c ∈ clusters ->
       get_image_for_fit c image blur_radius = (ox, oy, oz, Some cropped) ->
       minimize _ difference_with_image (__init__ uninit (smooth cropped blur_radius))
         (concat (map to_list
                    (local_guesses Cluster get_image_for_fit guess_gaussians
                       image blur_radius c))) = inr result ->
       success result = true ->
       get_tags c !! i = Some t ->
       exists g,
         Gaussian_of_args (slice (i * 10) (i * 10 + 10) (x result)) = inr g /\
         all_gaussians !! Z.to_nat t =
           Some (Some (translated g (of_Z ox) (of_Z oy) (of_Z oz)))) /\
    (forall p,
       (p < stacks_len stacks)%nat ->
       (forall c gs t, c ∈ clusters -> out minimize image blur_radius c = Fitted gs ->
                       t ∈ get_tags c -> p <> Z.to_nat t) ->
       all_gaussians !! p = Some None).
Proof.
  intros stacks clusters Hnd Hrange Hwb.
  destruct (fit_clusters_spec minimize image blur_radius clusters
              (replicate (stacks_len stacks) None) Hnd)
    as (lines & all' & Hsteps & Hlen & Hset & Hframe).
  { intros c t Hc Ht. rewrite length_replicate. apply (Hrange c t Hc Ht). }
  { exact Hwb. }
  rewrite length_replicate in Hlen.
  eexists _, all'. split.
  { unfold perform_gaussian_mixture_fit_from_watershed. fold stacks. fold clusters.
    rewrite Hsteps. reflexivity. }
  split; [exact Hlen|]. split.
  - intros c cropped ox oy oz result i t Hc Hcrop Hmin Hsuccess Ht.
    destruct (outcome_with_crop minimize image blur_radius c ox oy oz cropped Hcrop)
      as (Hout & Horigin).
    pose proof (Hwb c Hc) as Hwbc.
    destruct (perform_gaussian_mixture_fit uninit minimize (smooth cropped blur_radius) _)
      as [e|gs] eqn:Hfit.
    + exfalso. unfold perform_gaussian_mixture_fit in Hfit.
      rewrite Hmin, bind_inr, Hsuccess in Hfit. simpl in Hfit.
      destruct (gaussians_of_params_inl _ _ Hfit) as [msg ->].
      rewrite Hout in Hwbc. exact Hwbc.
    + rewrite Hout in Hwbc.
      apply perform_gaussian_mixture_fit_inr in Hfit.
      destruct Hfit as (result' & Hmin' & _ & Hgs).
      rewrite Hmin in Hmin'. injection Hmin' as <-.
      destruct (gaussians_of_params_lookup _ _ Hgs) as (_ & Hslices).
      destruct (lookup_lt_is_Some_2 gs i) as [g Hg].
      { rewrite Hwbc. eapply lookup_lt_Some. exact Ht. }
      exists g. split; [apply Hslices; exact Hg|].
      rewrite (Hset c gs i g t Hc Hout Hg Ht). unfold globalised. rewrite Horigin.
      reflexivity.
  - intros p Hp Hnot. rewrite Hframe by exact Hnot.
    apply lookup_replicate_2. exact Hp.
Qed.
End Run.
End OrchestratorFacts.

(** ** The statements on concrete inputs *)

Lemma difference_is_sum_of_squares_witness :
  returns (fst (@Autotrack.difference_with_image Z_Scalar Samples.params
                  (@Autotrack.__init__ Z_Scalar 0 Samples.image))).
Proof.
  apply (@difference_is_sum_of_squares Z_Scalar 0 Samples.flat_gradient Samples.image
           (@Autotrack.__init__ Z_Scalar 0 Samples.image) Samples.params).
  - apply reachable_init.
  - reflexivity.
  - intros i g Hi Hg. apply list_elem_of_singleton in Hi. subst i.
    injection Hg as <-. split.
    + repeat split; apply Z.leb_le; reflexivity.
    + vm_compute. discriminate.
Defined.

Lemma difference_is_pure_witness :
  fst (@Autotrack.difference_with_image Z_Scalar Samples.params
         (@Autotrack.__init__ Z_Scalar 0 Samples.image)) =
  fst (@Autotrack.difference_with_image Z_Scalar Samples.params
         (snd (@Autotrack.difference_with_image Z_Scalar Samples.params
                 (@Autotrack.__init__ Z_Scalar 0 Samples.image)))).
Proof.
  apply (@difference_is_pure Z_Scalar 0 Samples.flat_gradient Samples.image).
  - apply reachable_init.
  - apply reachable_difference, reachable_init.
Defined.

Lemma malformed_params_raise_witness :
  raises (fst (@Autotrack.difference_with_image Z_Scalar Samples.short_params
                 (@Autotrack.__init__ Z_Scalar 0 Samples.image))) /\
  raises (fst (@Autotrack.gradient Z_Scalar 0 Samples.flat_gradient Samples.short_params
                 (@Autotrack.__init__ Z_Scalar 0 Samples.image))).
Proof.
  apply (@malformed_params_raise Z_Scalar 0 Samples.flat_gradient Samples.short_params).
  - simpl. lia.
  - simpl. discriminate.
Defined.



Lemma gradient_is_twice_residual_dot_derivative_witness :
  returns (fst (@Autotrack.gradient Z_Scalar 0 Samples.flat_gradient Samples.params
                  (@Autotrack.__init__ Z_Scalar 0 Samples.image))).
Proof.
  apply (@gradient_is_twice_residual_dot_derivative Z_Scalar Z_ScalarLaws 0
           Samples.flat_gradient Samples.image
           (@Autotrack.__init__ Z_Scalar 0 Samples.image) Samples.params 1).
  - intros g image k image' [= <-]. apply same_layout_refl.
  - apply reachable_init.
  - reflexivity.
  - eexists. vm_compute. reflexivity.
  - intros j k g _ _ _. eexists. reflexivity.
Defined.



Lemma fit_result_is_aligned_with_tags_witness :
  exists lines all_gaussians,
    Samples.run_of Samples.content_minimize [0%nat; 1%nat] = (lines, inr all_gaussians) /\
    length all_gaussians = 2%nat.
Proof.
  destruct (@fit_result_is_aligned_with_tags Z_Scalar 0 nat Samples.crop_all
              Samples.one_guess Samples.own_tag Samples.cluster_name Samples.no_smoothing
              nat (fun n => n) (fun _ => 2%nat) 0 0 (fun t : Z => pretty t)
              Samples.content_minimize (fun _ => [0%nat; 1%nat])
              Samples.image Samples.image 1)
    as (lines & all_gaussians & Hrun & Hlen & _).
  - apply (bool_decide_unpack _). vm_compute. exact I.
  - intros c t Hc Ht.
    repeat (apply elem_of_cons in Hc; destruct Hc as [->|Hc]);
      try (inversion Hc; fail);
      apply list_elem_of_singleton in Ht; subst t; simpl; lia.
  - intros c Hc.
    repeat (apply elem_of_cons in Hc; destruct Hc as [->|Hc]);
      try (inversion Hc; fail); vm_compute; reflexivity.
  - exists lines, all_gaussians. split; [exact Hrun|exact Hlen].
Defined.

(** * Further properties of the code *)

(** ** Encoding blobs as parameter vectors *)

Section EncodingFacts.
Import ParticleDetection.
Context {S : Scalar}.

(** The constructor applied to the unpacked [g.to_list()] is a blob with
    the fields of [g], and a
    sequence that the constructor accepts is the [to_list] of the blob it
    builds: ten parameters, in the order of [to_list]. *)
Lemma constructor_to_list_round_trip (g : Gaussian) (args : list num) :
  Gaussian_of_args (to_list g) = inr g /\
  (Gaussian_of_args args = inr g -> args = to_list g /\ length args = 10%nat).
Proof.
  split; [apply Gaussian_of_args_to_list|].
  intros Hg. apply Gaussian_of_args_inr in Hg. subst. split; reflexivity.
Qed.

Lemma emapM_Forall2 {A B} (f : A -> Exc B) (l : list A) (r : list B) :
  Forall2 (fun v y => f v = inr y) l r -> emapM f l = inr r.
Proof.
  induction 1 as [|v y l r Hv _ IH]; simpl; [reflexivity|].
  rewrite Hv, IH. reflexivity.
Qed.

Lemma length_to_list (g : Gaussian) : length (to_list g) = 10%nat.
Proof. reflexivity. Qed.

Lemma length_flatten (gs : list Gaussian) :
  length (concat (map to_list gs)) = (length gs * 10)%nat.
Proof.
  rewrite (length_concat_uniform 10), length_map; [reflexivity|].
  apply Forall_map, Forall_forall. intros g _. reflexivity.
Qed.

Lemma slice_flatten (gs : list Gaussian) :
  forall k g, gs !! k = Some g ->
              slice (k * 10) (k * 10 + 10) (concat (map to_list gs)) = to_list g.
Proof.
  induction gs as [|g0 gs IH]; intros k g Hk; [discriminate|].
  unfold slice. replace (k * 10 + 10 - k * 10)%nat with 10%nat by lia.
  cbn [map concat]. destruct k as [|k].
  - injection Hk as <-. rewrite Nat.mul_0_l, drop_0.
    apply (take_app_length' (to_list g0)). reflexivity.
  - simpl in Hk. rewrite drop_app_ge by (rewrite length_to_list; lia).
    rewrite length_to_list.
    replace (Datatypes.S k * 10 - 10)%nat with (k * 10)%nat by lia.
    specialize (IH k g Hk). unfold slice in IH.
    replace (k * 10 + 10 - k * 10)%nat with 10%nat in IH by lia. exact IH.
Qed.

Lemma range_step_tens (n : nat) :
  range_step (n * 10) 10 = map (fun k => (k * 10)%nat) (seq 0 n).
Proof.
  unfold range_step. f_equal. f_equal.
  replace (n * 10 + 10 - 1)%nat with (9 + n * 10)%nat by lia.
  rewrite Nat.div_add by lia. reflexivity.
Qed.

(** The slices of a vector of [n] complete blocks of ten, put together,
    are the vector. *)
Lemma concat_slices (n : nat) :
  forall params : list num,
    length params = (n * 10)%nat ->
    concat (map (fun k => slice (k * 10) (k * 10 + 10) params) (seq 0 n)) = params.
Proof.
  induction n as [|n IH]; intros params Hlen.
  - destruct params; [reflexivity|discriminate].
  - cbn [seq map concat].
    transitivity (take 10 params ++ drop 10 params); [|apply take_drop]. f_equal.
    transitivity (concat (map (fun k => slice (k * 10) (k * 10 + 10) (drop 10 params))
                            (seq 0 n))).
    * f_equal. rewrite <- seq_shift, map_map. apply map_ext. intros k.
      unfold slice. rewrite drop_drop.
      replace (Datatypes.S k * 10 + 10 - Datatypes.S k * 10)%nat
        with (k * 10 + 10 - k * 10)%nat by lia.
      replace (Datatypes.S k * 10)%nat with (10 + k * 10)%nat by lia. reflexivity.
    * apply IH. rewrite length_drop. lia.
Qed.

Lemma gaussians_of_params_flatten (gs : list Gaussian) :
  gaussians_of_params (concat (map to_list gs)) = inr gs.
Proof.
  unfold gaussians_of_params. rewrite length_flatten, range_step_tens.
  apply emapM_Forall2. apply Forall2_same_length_lookup. split.
  - rewrite length_map, length_seq. reflexivity.
  - intros k i g Hi Hg. rewrite list_lookup_fmap in Hi.
    assert (Hk : (k < length gs)%nat) by (eapply lookup_lt_Some; exact Hg).
    rewrite lookup_seq_lt in Hi by exact Hk. injection Hi as <-.
    rewrite (slice_flatten gs k g Hg). apply Gaussian_of_args_to_list.
Qed.

(** X1.  Flattening a list of blobs and splitting the vector into blobs again
    gives the list back; and a vector that splits into blobs is the
    flattening of these blobs, so its length is ten times their number:
    no parameter is dropped, none is made up. *)
Theorem flatten_split_round_trip (gs : list Gaussian) (params : list num) :
  gaussians_of_params (concat (map to_list gs)) = inr gs /\
  (gaussians_of_params params = inr gs ->
   concat (map to_list gs) = params /\ length params = (10 * length gs)%nat).
Proof.
  split; [apply gaussians_of_params_flatten|].
  - intros Hgs. destruct (gaussians_of_params_lookup params gs Hgs) as (Hlen & Hslices).
    assert (Hfull : length params = (length gs * 10)%nat).
    { pose proof (Nat.div_mod_eq (length params + 10 - 1) 10).
      pose proof (Nat.mod_upper_bound (length params + 10 - 1) 10).
      destruct (Nat.eq_dec (length gs) 0%nat) as [Hz|Hnz]; [lia|].
      destruct (lookup_lt_is_Some_2 gs (length gs - 1)) as [g Hg]; [lia|].
      pose proof (Hslices _ _ Hg) as Hslice. apply Gaussian_of_args_inr in Hslice.
      apply (f_equal length) in Hslice. rewrite length_slice, length_to_list in Hslice.
      lia. }
    split; [|lia].
    rewrite <- (concat_slices (length gs) params Hfull). f_equal.
    apply list_eq. intros k. rewrite !list_lookup_fmap.
    destruct (gs !! k) as [g|] eqn:Hg; simpl.
    + rewrite lookup_seq_lt by (eapply lookup_lt_Some; exact Hg). simpl.
      f_equal. symmetry. apply Gaussian_of_args_inr. apply Hslices. exact Hg.
    + rewrite lookup_seq_ge; [reflexivity|]. apply lookup_ge_None. exact Hg.
Qed.
End EncodingFacts.

(** ** Positions and the mixture model *)

Section PositionFacts.
Import ParticleDetection.
Context {S : Scalar}.
Local Open Scope num_scope.

Lemma map_seq_lookup {A B} (l : list A) (G : nat -> B) (H : A -> B) :
  (forall i v, l !! i = Some v -> G i = H v) ->
  map G (seq 0 (length l)) = map H l.
Proof.
  intros HG. apply list_eq. intros i. rewrite !list_lookup_fmap.
  destruct (l !! i) as [v|] eqn:Hv; simpl.
  - rewrite lookup_seq_lt by (eapply lookup_lt_Some; exact Hv). simpl.
    f_equal. apply HG. exact Hv.
  - rewrite lookup_seq_ge; [reflexivity|]. apply lookup_ge_None. exact Hv.
Qed.

Lemma concat_concat_map3 {A B} (h : A -> B) (v : list (list (list A))) :
  concat (concat (map (map (map h)) v)) = map h (concat (concat v)).
Proof. rewrite <- concat_map, <- concat_map. reflexivity. Qed.

(** The elements of a well-formed array, tabulated by their indices. *)
Lemma tabulate_get (a : ndarray) :
  wf_ndarray a ->
  map (fun z => map (fun y => map (fun x => get a (Z.to_nat z) (Z.to_nat y) (Z.to_nat x))
                               (arange (Z.of_nat (shape2 a))))
                  (arange (Z.of_nat (shape1 a)))) (arange (Z.of_nat (shape0 a)))
  = map (map (map Some)) (voxels a).
Proof.
  intros [Hlen Hplanes]. unfold arange. rewrite !Nat2Z.id, map_map, <- Hlen.
  apply map_seq_lookup. intros i P HP.
  destruct (proj1 (Forall_lookup _ _) Hplanes i P HP) as [HlenP Hrows].
  rewrite map_map, <- HlenP. apply map_seq_lookup. intros j R HR.
  pose proof (proj1 (Forall_lookup _ _) Hrows j R HR) as HlenR.
  rewrite map_map, <- HlenR. apply map_seq_lookup. intros k v Hv.
  rewrite !Nat2Z.id. apply get_Some. exists P, R. auto.
Qed.

(** X2.  [_get_positions], as its docstring says: the positions are the
    [x, y, z] coordinates of the elements of [zyx_array.ravel()], in that
    order.  For every well-formed array, looking the positions of its
    shape up in the array gives its flattened elements; so there are as
    many positions as elements, and position [k] is where element [k] of
    the flattened array sits.  A size that is zero or negative leaves no
    position. *)
Theorem positions_are_ravel_coordinates (a : ndarray) (xsize ysize zsize : Z) :
  (wf_ndarray a ->
   map (fun p => let '(x, y, z) := p in get a (Z.to_nat z) (Z.to_nat y) (Z.to_nat x))
     (_get_positions (Z.of_nat (shape2 a)) (Z.of_nat (shape1 a)) (Z.of_nat (shape0 a)))
   = map Some (ravel a)) /\
  ((xsize <= 0 \/ ysize <= 0 \/ zsize <= 0)%Z ->
   _get_positions xsize ysize zsize = []).
Proof.
  split; [|apply positions_empty].
  intros Hwf. rewrite map_positions, (tabulate_get a Hwf). apply concat_concat_map3.
Qed.






End PositionFacts.

(** ** The fit of a whole image, for any clusters *)

Section RunFacts.
Import ParticleDetection Autotrack.
Context {S : Scalar}.
Variable uninit : num.
Variable Cluster : Type.
Variable get_image_for_fit : Cluster -> ndarray -> Z -> Z * Z * Z * option ndarray.
Variable guess_gaussians : Cluster -> ndarray -> list Gaussian.
Variable get_tags : Cluster -> list Z.
Variable cluster_str : Cluster -> string.
Variable smooth : ndarray -> Z -> ndarray.
Variable EllipseStacks : Type.
Variable stacks_len : EllipseStacks -> nat.
Variable get_ellipse_stacks_from_watershed : ndarray -> EllipseStacks.
Variable start_time end_time : num.
Variable float_str : num -> string.

Local Abbreviation minimizer :=
  (forall St : Type, (list num -> St -> Exc num * St) -> St -> list num ->
                     Exc OptimizeResult).
Local Abbreviation step m :=
  (fit_cluster uninit m Cluster get_image_for_fit guess_gaussians get_tags
     cluster_str smooth).
Local Abbreviation steps m :=
  (fit_clusters uninit m Cluster get_image_for_fit guess_gaussians get_tags
     cluster_str smooth).
Local Abbreviation out m :=
  (outcome uninit m Cluster get_image_for_fit guess_gaussians smooth).
Local Abbreviation origin := (crop_origin Cluster get_image_for_fit).
Local Abbreviation run m fos :=
  (perform_gaussian_mixture_fit_from_watershed uninit m EllipseStacks Cluster
     stacks_len get_ellipse_stacks_from_watershed fos get_image_for_fit
     guess_gaussians get_tags cluster_str smooth start_time end_time float_str).

(** The lines that report failed clusters of [clusters]. *)
Definition failure_lines (clusters : list Cluster) (lines : list string) : Prop :=
  Forall (fun line => exists c, c ∈ clusters /\
                                line = "Minimization failed for " +:+ cluster_str c) lines.

(** How a loop over clusters can end: with a list as long as the one it
    started with, or with an exception that is no [ValueError]. *)
Definition ends_well (n : nat) (r : Exc (list (option Gaussian))) : Prop :=
  match r with
  | inr all_gaussians => length all_gaussians = n
  | inl e => forall msg, e <> ValueError msg
  end.

Lemma outcome_Aborted (minimize : minimizer) (image : ndarray) (blur_radius : Z)
    (c : Cluster) (e : exn) :
  out minimize image blur_radius c = Aborted e -> forall msg, e <> ValueError msg.
Proof.
  unfold outcome.
  destruct (get_image_for_fit c image blur_radius) as [[[ox oy] oz] [cropped|]];
    [|discriminate].
  destruct (perform_gaussian_mixture_fit _ _ _ _) as [[]|gs]; try discriminate;
    intros [= <-] msg'; discriminate.
Qed.

Lemma fit_cluster_lines (minimize : minimizer) (image : ndarray) (blur_radius : Z)
    (c : Cluster) (all_gaussians : list (option Gaussian)) (lines : list string)
    (r : Exc (list (option Gaussian))) :
  step minimize image blur_radius c all_gaussians = (lines, r) ->
  failure_lines [c] lines /\ ends_well (length all_gaussians) r.
Proof.
  assert (Hline : failure_lines [c] [failure_line Cluster cluster_str c]).
  { constructor; [|constructor]. exists c. split; [left|reflexivity]. }
  rewrite fit_cluster_outcome.
  destruct (out minimize image blur_radius c) as [|msg|gs|e] eqn:Hout.
  - intros [= <- <-]. split; [constructor|reflexivity].
  - intros [= <- <-]. split; [exact Hline|reflexivity].
  - destruct (origin image blur_radius c) as [[ox oy] oz].
    destruct (store_gaussians (get_tags c) ox oy oz 0 gs all_gaussians)
      as [res l'] eqn:Hstore.
    destruct (store_gaussians_writes _ _ _ _ _ _ _ _ _ Hstore) as ((Hlen & _) & Hr).
    destruct Hr as [-> | [m ->]].
    + intros [= <- <-]. split; [constructor|symmetry; exact Hlen].
    + intros [= <- <-]. split; [constructor|intros msg'; discriminate].
  - intros [= <- <-]. split; [constructor|].
    exact (outcome_Aborted minimize image blur_radius c e Hout).
Qed.

Lemma failure_lines_mono (cs cs' : list Cluster) (lines : list string) :
  (forall c, c ∈ cs -> c ∈ cs') -> failure_lines cs lines -> failure_lines cs' lines.
Proof.
  intros Hsub Hlines. eapply Forall_impl; [exact Hlines|].
  intros line (c & Hc & Hl). exists c. auto.
Qed.

Lemma fit_clusters_lines (minimize : minimizer) (image : ndarray) (blur_radius : Z)
    (cs : list Cluster) :
  forall all_gaussians lines r,
    steps minimize image blur_radius cs all_gaussians = (lines, r) ->
    failure_lines cs lines /\ ends_well (length all_gaussians) r.
Proof.
  induction cs as [|c cs IH]; intros all lines r.
  - intros [= <- <-]. split; [constructor|reflexivity].
  - cbn [fit_clusters].
    destruct (step minimize image blur_radius c all) as [l1 r1] eqn:Hstep.
    destruct (fit_cluster_lines _ _ _ _ _ _ _ Hstep) as (Hl1 & Hr1).
    destruct r1 as [e|all1]; simpl.
    + intros [= <- <-]. split; [|exact Hr1].
      eapply failure_lines_mono; [|exact Hl1].
      intros c' Hc'. apply list_elem_of_singleton in Hc'. subst. left.
    + destruct (steps minimize image blur_radius cs all1) as [l2 r2] eqn:Hsteps.
      destruct (IH _ _ _ Hsteps) as (Hl2 & Hr2).
      intros [= <- <-]. simpl in Hr1. rewrite Hr1 in Hr2. split; [|exact Hr2].
      apply Forall_app. split.
      * eapply failure_lines_mono; [|exact Hl1].
        intros c' Hc'. apply list_elem_of_singleton in Hc'. subst. left.
      * eapply failure_lines_mono; [|exact Hl2]. intros c' Hc'. right. exact Hc'.
Qed.

(** X4.  Whatever the clusters, their tags and the minimizer are, a run of
    [perform_gaussian_mixture_fit_from_watershed] ends in one of two
    ways.  It returns a list with exactly one slot per seed, after it has
    printed the line of the elapsed time as its last line.  Or it raises,
    without that line, and the exception is never a [ValueError]: those
    are all caught inside the loop.  Every other line it prints reports a
    failed cluster, by the name of one of the clusters. *)
Theorem run_returns_one_slot_per_seed_or_raises (minimize : minimizer)
    (find_overlapping_stacks : EllipseStacks -> list Cluster)
    (image watershed_image : ndarray) (blur_radius : Z) :
  let stacks := get_ellipse_stacks_from_watershed watershed_image in
  exists lines r,
    run minimize find_overlapping_stacks image watershed_image blur_radius =
      (lines ++ match r with
                | inr _ => ["Whole fitting process took "
                            +:+ float_str (end_time - start_time)%num +:+ " seconds."]
                | inl _ => []
                end, r) /\
    failure_lines (find_overlapping_stacks stacks) lines /\
    match r with
    | inr all_gaussians => length all_gaussians = stacks_len stacks
    | inl e => forall msg, e <> ValueError msg
    end.
Proof.
  intros stacks. unfold perform_gaussian_mixture_fit_from_watershed. fold stacks.
  destruct (steps minimize image blur_radius (find_overlapping_stacks stacks)
              (replicate (stacks_len stacks) None)) as [lines r] eqn:Hsteps.
  destruct (fit_clusters_lines _ _ _ _ _ _ _ Hsteps) as (Hlines & Hr).
  rewrite length_replicate in Hr.
  exists lines, r. split; [|split; [exact Hlines|exact Hr]].
  destruct r as [e|all]; simpl; [rewrite app_nil_r|]; reflexivity.
Qed.

Section Unmoved.
Context {L : ScalarLaws S}.
Local Open Scope num_scope.

Add Ring num_ring_run : num_ring.



End Unmoved.
End RunFacts.

(** ** What the two methods of [_ModelAndImageDifference] leave alone *)

Section StateFacts.
Import ParticleDetection Autotrack.
Context {S : Scalar}.
Variable uninit : num.
Variable draw_gradient : Gaussian -> ndarray -> nat -> Exc ndarray.
Local Open Scope num_scope.

Lemma _draw_gaussians_loop_frame (params : list num) (starts : list nat) :
  forall (last_gaussians_new : dict) (self : ModelAndImageDifference),
    frame self (snd (_draw_gaussians_loop params last_gaussians_new starts self)).
Proof.
  induction starts as [|i starts IH]; intros new self.
  - apply frame_refl.
  - cbn [_draw_gaussians_loop]. unfold mbind_ at 1, mlift.
    destruct (Gaussian_of_args (slice i (i + 10) params)) as [e|g]; [apply frame_refl|].
    unfold mbind_ at 1, mget. unfold mbind_ at 1, draw_to_scratch.
    destruct (Autotrack.draw g (_scratch_image self) (dict_get (_last_gaussians self) g))
      as [e|[image rendered]]; [apply frame_refl|].
    eapply frame_trans; [apply frame_set_scratch_image|apply IH].
Qed.

Lemma _draw_gaussians_to_scratch_image_frame (params : list num)
    (self : ModelAndImageDifference) :
  let r := _draw_gaussians_to_scratch_image params self in
  frame_draw self (snd r) /\
  (raises (fst r) -> _last_gaussians (snd r) = _last_gaussians self).
Proof.
  cbv zeta. unfold _draw_gaussians_to_scratch_image, mbind_, mmodify.
  pose proof (_draw_gaussians_loop_frame params (range_step (length params) 10) []
                (set_scratch_image (fill zero) self)) as (F1 & F2 & F3).
  destruct (_draw_gaussians_loop params [] (range_step (length params) 10)
              (set_scratch_image (fill zero) self)) as [[e|new] self']; simpl in *.
  - split; [split; assumption|]. intros _. exact F3.
  - split; [split; assumption|]. intros [e He]. discriminate.
Qed.

(** X6.  Neither method ever writes the data image, whatever state the
    instance is in and whether the call returns or raises: the image that
    the fit compares with stays the one the instance was created for.
    [difference_with_image] leaves the buffer of [gradient] alone, and
    [gradient] leaves the render cache as [difference_with_image] would.
    A call of [difference_with_image] that raises keeps the render cache
    of the call before: the new cache is put in place only when every
    blob is drawn. *)
Theorem methods_never_write_the_data_image (params : list num)
    (self : ModelAndImageDifference) :
  let after_difference := snd (difference_with_image params self) in
  let after_gradient := snd (gradient uninit draw_gradient params self) in
  _data_image after_difference = _data_image self /\
  _data_image after_gradient = _data_image self /\
  _scratch_image_gradient after_difference = _scratch_image_gradient self /\
  _last_gaussians after_gradient = _last_gaussians after_difference /\
  (raises (fst (difference_with_image params self)) ->
   _last_gaussians after_difference = _last_gaussians self).
Proof.
  cbv zeta. rewrite difference_with_image_unfold, gradient_unfold.
  pose proof (_draw_gaussians_to_scratch_image_frame params self) as ((F1 & F2) & F3).
  destruct (_draw_gaussians_to_scratch_image params self) as [[e|[]] self'];
    cbn [fst snd] in *.
  - repeat split; try assumption. intros _. apply F3. exists e. reflexivity.
  - pose proof (gradient_outer_frame draw_gradient params
                  (seq 0 (length params / 10)) (replicate (length params) uninit)
                  (set_scratch_image (fun _ => doubled self') self')) as (G1 & _ & G3).
    split; [exact F1|]. split; [rewrite G1; exact F1|]. split; [exact F2|].
    split; [rewrite G3; reflexivity|]. intros [e He]. discriminate.
Qed.
End StateFacts.

(** ** The objective at an exact fit *)

Section ExactFitFacts.
Import ParticleDetection Autotrack.
Context {S : Scalar} {L : ScalarLaws S}.
Variable uninit : num.
Variable draw_gradient : Gaussian -> ndarray -> nat -> Exc ndarray.
Local Open Scope num_scope.

Add Ring num_ring_exact : num_ring.





End ExactFitFacts.

(** ** Guesses made from particles, and the comparison of blobs *)

Section GuessFacts.
Import ParticleDetection.
Context {S : Scalar} {L : ScalarLaws S}.
Local Open Scope num_scope.

Add Ring num_ring_guess : num_ring.
















(** Two positions whose midpoint is the mean of [g]. *)
Definition mirrored (g : Gaussian) (p p' : Z * Z * Z) : Prop :=
  let '(x, y, z) := p in
  let '(x', y', z') := p' in
  of_Z x + of_Z x' = mu_x g + mu_x g /\
  of_Z y + of_Z y' = mu_y g + mu_y g /\
  of_Z z + of_Z z' = mu_z g + mu_z g.

Lemma quadratic_form_neg (m : matrix) (v0 v1 v2 : num) :
  quadratic_form m (- v0, - v1, - v2) = quadratic_form m (v0, v1, v2).
Proof.
  destruct m as [[[[m00 m01] m02] [[m10 m11] m12]] [[m20 m21] m22]].
  unfold quadratic_form. ring.
Qed.

Lemma mirrored_offset (u u' m : num) : u + u' = m + m -> u - m = - (u' - m).
Proof.
  intros H. replace (u - m) with (u + u' - u' - m) by ring. rewrite H. ring.
Qed.

(** X10.  [_3d_gauss] is symmetric about the mean: at two positions that lie
    opposite each other across the mean, position by position, it gives
    the same intensities, and it raises on the one list of positions
    when it raises on the other. *)
Theorem gaussian_is_symmetric_about_its_mean (g : Gaussian) (pos pos' : list (Z * Z * Z)) :
  Forall2 (mirrored g) pos pos' ->
  _3d_gauss pos (a g) (mu_x g) (mu_y g) (mu_z g)
    (cov_xx g) (cov_yy g) (cov_zz g) (cov_xy g) (cov_xz g) (cov_yz g) =
  _3d_gauss pos' (a g) (mu_x g) (mu_y g) (mu_z g)
    (cov_xx g) (cov_yy g) (cov_zz g) (cov_xy g) (cov_xz g) (cov_yz g).
Proof.
  intros Hpos. unfold _3d_gauss.
  destruct (inv3 _) as [e|cov_inv]; [reflexivity|]. rewrite !bind_inr.
  unfold ret. f_equal.
  induction Hpos as [|[[x y] z] [[x' y'] z'] pos pos' (Hx & Hy & Hz) _ IH];
    [reflexivity|].
  cbn [map]. rewrite IH. f_equal. unfold gauss_at, pos_num.
  rewrite (mirrored_offset _ _ _ Hx), (mirrored_offset _ _ _ Hy),
    (mirrored_offset _ _ _ Hz), quadratic_form_neg. reflexivity.
Qed.
End GuessFacts.

(** ** The fits by [curve_fit]: what they print and how they end *)

Section FitFacts.
Import ParticleDetection.
Context {S : Scalar}.
Local Open Scope num_scope.

Variable curve_fit :
  (list (Z * Z * Z) -> list num -> Exc (list num)) ->
  list (Z * Z * Z) -> list num -> list num ->
  Exc (list num * list (list num)).
Variable cv2_resize : list (list num) -> nat -> nat -> Exc (list (list num)).

Lemma emapM_returns {A B} (f : A -> Exc B) (l : list A) :
  (forall v, v ∈ l -> returns (f v)) -> returns (emapM f l).
Proof.
  induction l as [|v l IH]; intros Hall; simpl.
  - eexists. reflexivity.
  - destruct (Hall v) as [y ->]; [left|].
    destruct IH as [ys ->]; [intros w Hw; apply Hall; right; exact Hw|].
    eexists. reflexivity.
Qed.

(** Splitting a vector into blobs: it works for a length that is a
    multiple of ten, and is a [TypeError] for any other length. *)
Lemma gaussians_of_params_cases (params : list num) :
  ((length params mod 10 = 0)%nat ->
   exists gs, gaussians_of_params params = inr gs /\
              (length gs * 10 = length params)%nat) /\
  ((length params mod 10 <> 0)%nat ->
   exists msg, gaussians_of_params params = inl (TypeError msg)).
Proof.
  split.
  - intros Hmod.
    destruct (emapM_returns (fun i => Gaussian_of_args (slice i (i + 10) params))
                (range_step (length params) 10)) as [gs Hgs].
    { intros i Hi. apply slices_complete; assumption. }
    exists gs. split; [exact Hgs|].
    destruct (gaussians_of_params_lookup params gs Hgs) as (Hlen & _).
    pose proof (Nat.div_mod_eq (length params) 10).
    pose proof (Nat.div_mod_eq (length params + 10 - 1) 10).
    pose proof (Nat.mod_upper_bound (length params + 10 - 1) 10).
    assert ((length params + 10 - 1) / 10 = length params / 10)%nat; [|lia].
    symmetry. apply (Nat.div_unique _ 10 _ 9); lia.
  - intros Hmod.
    assert (Hraises : raises (gaussians_of_params params)).
    { assert (Hpos : (0 < length params)%nat).
      { destruct params; [simpl in Hmod; contradiction|simpl; lia]. }
      pose proof (malformed_has_short_slice params Hpos Hmod) as Hex.
      apply Exists_exists in Hex. destruct Hex as (i & Hi & Hshort).
      unfold gaussians_of_params. eapply emapM_raises; [exact Hi|exact Hshort]. }
    destruct Hraises as [e He]. rewrite He.
    destruct (gaussians_of_params_inl params e He) as [msg ->]. exists msg. reflexivity.
Qed.

(** X11.  [perform_gaussian_fit] prints the line that starts the fit, with ten
    parameters and as many pixels as there are positions.  When
    [curve_fit] raises, that exception ends the call and nothing more is
    printed.  When [curve_fit] returns coefficients, ["Done!"] is printed,
    and then: coefficients that are at least one complete block of ten
    give the blob of the first ten; no coefficients at all are an
    [IndexError], since the list of blobs has no first element; and a
    number of coefficients that is no multiple of ten is a
    [TypeError]. *)
Theorem single_fit_outcome (original_image : ndarray) (guess : Gaussian) :
  let pos := _get_positions (Z.of_nat (shape2 original_image))
               (Z.of_nat (shape1 original_image)) (Z.of_nat (shape0 original_image)) in
  let start := "Starting the fit... 10 parameters, " +:+ pretty (length pos)
               +:+ " pixels" in
  match curve_fit _3d_gauss_multiple pos (ravel original_image) (to_list guess) with
  | inl e => perform_gaussian_fit curve_fit original_image guess = ([start], inl e)
  | inr (coeff, _) =>
      exists r,
        perform_gaussian_fit curve_fit original_image guess = ([start; "Done!"], r) /\
        (coeff = [] -> r = inl (IndexError "list index out of range")) /\
        ((0 < length coeff)%nat -> (length coeff mod 10 = 0)%nat ->
         exists g, take 10 coeff = to_list g /\ r = inr g) /\
        ((length coeff mod 10 <> 0)%nat -> exists msg, r = inl (TypeError msg))
  end.
Proof.
  intros pos start.
  assert (Hfit : perform_gaussian_fit curve_fit original_image guess =
                 obind (obind (print start) (fun _ =>
                        obind (lift (curve_fit _3d_gauss_multiple pos
                                       (ravel original_image) (to_list guess)))
                          (fun cv => obind (print "Done!") (fun _ =>
                                     lift (gaussians_of_params (fst cv))))))
                   (fun l => match l with
                             | g :: _ => oret g
                             | [] => lift (raise (IndexError "list index out of range"))
                             end)).
  { unfold perform_gaussian_fit, perform_gaussian_mixture_fit, mbind, Out_bind.
    cbn [map concat]. rewrite app_nil_r. fold pos.
    change (length (to_list guess)) with 10%nat.
    assert (H10 : pretty 10%nat = "10") by (vm_compute; reflexivity).
    rewrite H10. apply (f_equal (fun m => obind m _)).
    change ("Starting the fit... " +:+ "10" +:+ " parameters, " +:+ pretty (length pos)
            +:+ " pixels") with start.
    apply obind_ext. intros []. apply obind_ext. intros [coeff var].
    reflexivity. }
  rewrite Hfit. clear Hfit.
  destruct (curve_fit _3d_gauss_multiple pos (ravel original_image) (to_list guess))
    as [e|[coeff var]]; [reflexivity|].
  destruct (gaussians_of_params_cases coeff) as (Hfull & Hshort).
  cbv [obind lift print oret fst raise]. cbn [app].
  destruct (gaussians_of_params coeff) as [e|gs] eqn:Hgs.
  - eexists. split; [reflexivity|]. split; [|split].
    + intros ->. discriminate.
    + intros _ Hmod. destruct (Hfull Hmod) as (gs & [=] & _).
    + intros Hmod. destruct (Hshort Hmod) as (msg & [= ->]). exists msg. reflexivity.
  - destruct gs as [|g gs].
    + eexists. split; [reflexivity|]. split; [reflexivity|]. split.
      * intros Hpos Hmod. destruct (Hfull Hmod) as (gs & [= <-] & Hlen).
        simpl in Hlen. lia.
      * intros Hmod. destruct (Hshort Hmod) as (msg & [=]).
    + eexists. split; [reflexivity|]. split; [|split].
      * intros ->. discriminate.
      * intros _ _. exists g. split; [|reflexivity].
        destruct (gaussians_of_params_lookup coeff (g :: gs) Hgs) as (_ & Hslices).
        specialize (Hslices 0%nat g eq_refl). apply Gaussian_of_args_inr in Hslices.
        unfold slice in Hslices. rewrite drop_0 in Hslices. exact Hslices.
      * intros Hmod. destruct (Hshort Hmod) as (msg & [=]).
Qed.

Lemma resize_planes_raises (image : ndarray) (n : nat) (zs1 : list nat) (z : nat)
    (zs2 : list nat) (plane : list (list num)) (e : exn) :
  (forall z', z' ∈ zs1 ->
     exists p, voxels image !! z' = Some p /\ returns (cv2_resize p n n)) ->
  voxels image !! z = Some plane -> cv2_resize plane n n = inl e ->
  forall new_image,
    resize_planes cv2_resize image n new_image (zs1 ++ z :: zs2) = inl e.
Proof.
  intros Hbefore Hplane He. induction zs1 as [|z1 zs1 IH]; intros new_image.
  - cbn [app resize_planes]. rewrite Hplane, He. reflexivity.
  - cbn [app resize_planes].
    destruct (Hbefore z1) as (p & -> & [dst ->]); [left|]. rewrite bind_inr.
    apply IH. intros z' Hz'. apply Hbefore. right. exact Hz'.
Qed.

(** X12.  How [perform_gaussian_mixture_fit_lowres] fails before it starts a
    fit.  The first plane that [cv2.resize] refuses ends the call with
    the exception of [cv2.resize].  When every plane is resized and the
    image has no rows, the scale [64 / old_size] is a division by zero:
    with at least one guess the call ends with a [ZeroDivisionError];
    without guesses nothing is divided and the fit of the original image
    runs on the empty list.  A call that fails in one of these ways
    prints nothing. *)
Theorem lowres_failure_modes (uninit : num) (original_image : ndarray)
    (guesses : list Gaussian) :
  wf_ndarray original_image ->
  (forall z plane e,
     voxels original_image !! z = Some plane ->
     cv2_resize plane 64 64 = inl e ->
     (forall z' p, (z' < z)%nat -> voxels original_image !! z' = Some p ->
                   returns (cv2_resize p 64 64)) ->
     perform_gaussian_mixture_fit_lowres curve_fit cv2_resize uninit original_image guesses
       = ([], inl e)) /\
  ((forall plane, plane ∈ voxels original_image -> returns (cv2_resize plane 64 64)) ->
   shape1 original_image = 0%nat ->
   perform_gaussian_mixture_fit_lowres curve_fit cv2_resize uninit original_image guesses
     = match guesses with
       | [] => perform_gaussian_mixture_fit curve_fit original_image []
       | _ :: _ => ([], inl (ZeroDivisionError "division by zero"))
       end).
Proof.
  intros [Hlen Hplanes]. split.
  - intros z plane e Hplane He Hbefore.
    assert (Hz : (z < shape0 original_image)%nat).
    { rewrite <- Hlen. eapply lookup_lt_Some. exact Hplane. }
    unfold perform_gaussian_mixture_fit_lowres.
    replace (shape0 original_image) with (z + Datatypes.S (shape0 original_image - z - 1))%nat
      at 2 by lia.
    rewrite seq_app. cbn [seq].
    rewrite (resize_planes_raises original_image 64 (seq 0 z) (0 + z) _ plane e).
    + reflexivity.
    + intros z' Hz'. apply elem_of_seq in Hz'.
      destruct (lookup_lt_is_Some_2 (voxels original_image) z') as [p Hp]; [lia|].
      exists p. split; [exact Hp|]. apply (Hbefore z' p); [lia|exact Hp].
    + exact Hplane.
    + exact He.
  - intros Hresize Hrows. unfold perform_gaussian_mixture_fit_lowres.
    destruct (resize_planes_returns cv2_resize original_image 64
                (seq 0 (shape0 original_image)) Hresize) with
      (new_image := replicate (shape0 original_image)
                      (replicate 64%nat (replicate 64%nat uninit)))
      as [new_image Hnew].
    { apply Forall_forall. intros z Hz. apply elem_of_seq in Hz. lia. }
    rewrite Hnew, Hrows. unfold mbind, Out_bind. rewrite obind_lift_inr.
    destruct guesses as [|guess guesses].
    + cbn [emapM]. rewrite obind_lift_inr. reflexivity.
    + reflexivity.
Qed.

(** The first blob of a vector of coefficients, by the length of the
    vector. *)
Lemma first_blob_cases (coeff : list num) :
  let r := l ← gaussians_of_params coeff;
           match l with
           | g :: _ => ret g
           | [] => raise (IndexError "list index out of range")
           end in
  (coeff = [] -> r = inl (IndexError "list index out of range")) /\
  ((0 < length coeff)%nat -> (length coeff mod 10 = 0)%nat ->
   exists g, take 10 coeff = to_list g /\ r = inr g) /\
  ((length coeff mod 10 <> 0)%nat -> exists msg, r = inl (TypeError msg)).
Proof.
  cbv zeta. destruct (gaussians_of_params_cases coeff) as (Hfull & Hshort).
  destruct (gaussians_of_params coeff) as [e|gs] eqn:Hgs.
  - rewrite bind_inl. split; [|split].
    + intros ->. discriminate.
    + intros _ Hmod. destruct (Hfull Hmod) as (gs & [=] & _).
    + intros Hmod. destruct (Hshort Hmod) as (msg & [= ->]). exists msg. reflexivity.
  - rewrite bind_inr. destruct gs as [|g gs].
    + split; [reflexivity|]. split.
      * intros Hpos Hmod. destruct (Hfull Hmod) as (gs & [= <-] & Hlen).
        simpl in Hlen. lia.
      * intros Hmod. destruct (Hshort Hmod) as (msg & [=]).
    + split; [|split].
      * intros ->. discriminate.
      * intros _ _. exists g. split; [|reflexivity].
        destruct (gaussians_of_params_lookup coeff (g :: gs) Hgs) as (_ & Hslices).
        specialize (Hslices 0%nat g eq_refl). apply Gaussian_of_args_inr in Hslices.
        unfold slice in Hslices. rewrite drop_0 in Hslices. exact Hslices.
      * intros Hmod. destruct (Hshort Hmod) as (msg & [=]).
Qed.

(** X13.  [perform_gaussian_fit] of the module that fits with
    [scipy.optimize.minimize], by what the minimizer does.  An exception
    of the minimizer ends the call.  A result without success is a
    [ValueError] that carries the message of the minimizer.  A successful
    result is read as blobs of ten parameters each, of which the first
    is returned; an empty vector is an [IndexError], a length that is no
    multiple of ten a [TypeError]. *)
Theorem minimizer_fit_outcome (uninit : num)
    (minimize : forall St : Type, (list num -> St -> Exc num * St) -> St -> list num ->
                                  Exc Autotrack.OptimizeResult)
    (original_image : ndarray) (guess : Gaussian) :
  let fit := Autotrack.perform_gaussian_fit uninit minimize original_image guess in
  match minimize _ Autotrack.difference_with_image
          (Autotrack.__init__ uninit original_image) (to_list guess) with
  | inl e => fit = inl e
  | inr result =>
      if Autotrack.success result then
        (Autotrack.x result = [] -> fit = inl (IndexError "list index out of range")) /\
        ((0 < length (Autotrack.x result))%nat ->
         (length (Autotrack.x result) mod 10 = 0)%nat ->
         exists g, take 10 (Autotrack.x result) = to_list g /\ fit = inr g) /\
        ((length (Autotrack.x result) mod 10 <> 0)%nat ->
         exists msg, fit = inl (TypeError msg))
      else
        fit = inl (ValueError ("Minimization failed: " +:+ Autotrack.message result))
  end.
Proof.
  cbv zeta. unfold Autotrack.perform_gaussian_fit, Autotrack.perform_gaussian_mixture_fit.
  cbn [map concat]. rewrite app_nil_r.
  destruct (minimize _ _ _ _) as [e|result]; [reflexivity|]. rewrite bind_inr.
  destruct (Autotrack.success result); [|reflexivity]. cbn [negb].
  apply first_blob_cases.
Qed.
End FitFacts.

(** ** The further properties on concrete inputs *)

Lemma flatten_split_round_trip_witness :
  concat (map (@ParticleDetection.to_list Z_Scalar) [Samples.small_blob]) = Samples.params /\
  length Samples.params = (10 * 1)%nat.
Proof.
  apply (proj2 (@flatten_split_round_trip Z_Scalar [Samples.small_blob] Samples.params)).
  reflexivity.
Defined.

Lemma positions_are_ravel_coordinates_witness :
  map (fun p : Z * Z * Z =>
         let '(x, y, z) := p in
         @get Z_Scalar Samples.image (Z.to_nat z) (Z.to_nat y) (Z.to_nat x))
    (ParticleDetection._get_positions 3 3 2)
  = map Some (@ravel Z_Scalar Samples.image).
Proof.
  apply (proj1 (@positions_are_ravel_coordinates Z_Scalar Samples.image 0 0 0)).
  split; [reflexivity|]. repeat constructor.
Defined.






Lemma lowres_failure_modes_witness :
  @ParticleDetection.perform_gaussian_mixture_fit_lowres Z_Scalar Samples.identity_fit
    Samples.zero_resize 0 Samples.rowless_image [Samples.blob]
  = ([], inl (ZeroDivisionError "division by zero")).
Proof.
  assert (Hwf : @wf_ndarray Z_Scalar Samples.rowless_image)
    by (split; [reflexivity|repeat constructor]).
  apply (proj2 (@lowres_failure_modes Z_Scalar Samples.identity_fit Samples.zero_resize 0
                  Samples.rowless_image [Samples.blob] Hwf)).
  - intros plane _. eexists. reflexivity.
  - reflexivity.
Defined.

Lemma gaussian_is_symmetric_about_its_mean_witness :
  @ParticleDetection._3d_gauss Z_Scalar [(1, 2, 0); (0, 0, 0)] 200 2 2 1 1 1 1 0 0 0 =
  @ParticleDetection._3d_gauss Z_Scalar [(3, 2, 2); (4, 4, 2)] 200 2 2 1 1 1 1 0 0 0.
Proof.
  apply (@gaussian_is_symmetric_about_its_mean Z_Scalar Z_ScalarLaws Samples.blob
           [(1, 2, 0); (0, 0, 0)] [(3, 2, 2); (4, 4, 2)]).
  repeat constructor.
Defined.
